(** * OPIC: the cash ledger, its binary codec and its persistence layer

    A shallow embedding of [opic.go], [serialisable.go] and [persistent.go].

    - Keys are [uint64] hashes, modelled as [Z] with the wrap-around of the
      FNV-1 multiplication written out.
    - The three Go maps are [gmap Z _]; reading an absent key yields the zero
      value, as the Go map read does.
    - [float64] arithmetic is an interface ([Float64]) with two instances:
      IEEE-754 binary64 (Rocq's primitive floats, the arithmetic the program
      runs on) and exact rationals ([Qc], the arithmetic in which the
      statements made "up to floating-point rounding" are read).
    - [sync.RWMutex] is not modelled: every operation is a function from the
      ledger state to the ledger state, i.e. what runs inside the lock. *)

From Stdlib Require Import ZArith QArith Qcanon Floats Lia Field.
From Stdlib.Strings Require Import Byte.
From stdpp Require Import gmap strings list fin_maps.

Local Open Scope Z_scope.

(** ** Hashing layer: [hash/fnv], 64-bit FNV-1 *)

Definition offset64 : Z := 14695981039346656037.
Definition prime64 : Z := 1099511628211.
Definition wrap64 (z : Z) : Z := z mod 2 ^ 64.

(** [sum64.Write]: for every byte, [hash *= prime64; hash ^= c]. *)
Fixpoint fnvWrite (hash : Z) (s : string) : Z :=
  match s with
  | EmptyString => hash
  | String c s' =>
      fnvWrite (Z.lxor (wrap64 (hash * prime64)) (Z.of_N (Ascii.N_of_ascii c))) s'
  end.

Definition fnvHash (s : string) : Z := fnvWrite offset64 s.

(** ** Time

    A [time.Time] is an instant, counted in nanoseconds since the zero Time
    (January 1, year 1, 00:00:00 UTC); a [time.Duration] is an [int64] count
    of nanoseconds. *)

Definition Time : Type := Z.
Definition Duration : Type := Z.

Definition zeroTime : Time := 0.
Definition minDuration : Duration := - 2 ^ 63.
Definition maxDuration : Duration := 2 ^ 63 - 1.

(** [Time.Sub]: the difference, or the minimum or maximum duration when the
    difference does not fit. *)
Definition Sub (t u : Time) : Duration :=
  if t - u <? minDuration then minDuration
  else if maxDuration <? t - u then maxDuration
  else t - u.

(** ** The arithmetic of [float64] *)

Class Float64 (F : Type) := {
  fzero : F;
  fadd : F → F → F;
  fsub : F → F → F;
  fmul : F → F → F;
  fdiv : F → F → F;
  fltb : F → F → bool;
  (** the conversion [float64(n)] of an [int], [int64] or [Duration] *)
  float64 : Z → F
}.

Declare Scope fl_scope.
Delimit Scope fl_scope with fl.
Infix "+" := fadd : fl_scope.
Infix "-" := fsub : fl_scope.
Infix "*" := fmul : fl_scope.
Infix "/" := fdiv : fl_scope.
Infix "<?" := fltb : fl_scope.

(** IEEE-754 binary64. An integer converts to the nearest [float64], ties to
    even. *)
Definition float64_of_int (z : Z) : float :=
  SF2Prim (binary_normalize prec emax z 0 false).

#[export] Instance binary64 : Float64 float := {|
  fzero := 0%float;
  fadd := PrimFloat.add;
  fsub := PrimFloat.sub;
  fmul := PrimFloat.mul;
  fdiv := PrimFloat.div;
  fltb := PrimFloat.ltb;
  float64 := float64_of_int
|}.

(** Exact arithmetic. *)
Definition Qc_of_int (z : Z) : Qc := Q2Qc (inject_Z z).

#[export] Instance exact : Float64 Qc := {|
  fzero := 0%Qc;
  fadd := Qcplus;
  fsub := Qcminus;
  fmul := Qcmult;
  fdiv := Qcdiv;
  fltb := λ x y, bool_decide (x < y)%Qc;
  float64 := Qc_of_int
|}.

(** ** The ledger ([opic.go]) *)

Section Ledger.
Context {F : Type} {arith : Float64 F}.

(** OPIC holds all the state for running the algorithm. *)
Record OPIC := mkOPIC {
  dirty : bool;
  current : gmap Z F;
  cleared : gmap Z Time;
  history : gmap Z F
}.

(** A Go map read: the zero value for an absent key. *)
Definition cash (m : gmap Z F) (k : Z) : F := default fzero (m !! k).
Definition instant (m : gmap Z Time) (k : Z) : Time := default zeroTime (m !! k).

Definition New : OPIC :=
  {| dirty := false; current := ∅; cleared := ∅; history := ∅ |}.

(** [for _, u := range in { o.current[u] = n }] *)
Definition InitialiseN (c : F) (ins : list Z) (o : OPIC) : OPIC :=
  let n := (c / float64 (Z.of_nat (length ins)))%fl in
  {| dirty := true;
     current := foldl (λ cur u, <[u := n]> cur) (current o) ins;
     cleared := cleared o;
     history := history o |}.

Definition Initialise (c : F) (ins : list string) (o : OPIC) : OPIC :=
  InitialiseN c (fnvHash <$> ins) o.

(** The body of the loop of [Distribute] over [out]. [i] is the position in
    [out]; [now i] is what [time.Now()] answers in that iteration. *)
Fixpoint credit (share : F) (now : nat → Time) (i : nat) (out : list string)
    (cur : gmap Z F) (clr : gmap Z Time) : gmap Z F * gmap Z Time :=
  match out with
  | [] => (cur, clr)
  | s :: out' =>
      let outH := fnvHash s in
      let cur' := <[outH := (cash cur outH + share)%fl]> cur in
      let clr' := match clr !! outH with
                  | Some _ => clr
                  | None => <[outH := now i]> clr
                  end in
      credit share now (S i) out' cur' clr'
  end.

(** Distribute distributes the cash from the input to the outputs, and marks
    the input as having been fetched. It returns the cash moved. *)
Definition Distribute (source : string) (out : list string) (t : Time)
    (now : nat → Time) (o : OPIC) : F * OPIC :=
  let sourceH := fnvHash source in
  let c := cash (current o) sourceH in
  let share := (c / float64 (Z.of_nat (length out) + 1))%fl in
  let cur1 := <[0 := (cash (current o) 0 + share)%fl]> (current o) in
  let '(cur2, clr2) := credit share now 0 out cur1 (cleared o) in
  let d := (cash cur2 0 / float64 (Z.of_nat (size cur2) + 1))%fl in
  let cur3 := <[0 := (cash cur2 0 - d)%fl]> cur2 in
  (c, {| dirty := true;
         current := <[sourceH := d]> cur3;
         cleared := <[sourceH := t]> clr2;
         history := <[sourceH := c]> (history o) |}).

(** Finalise moves all the current values into the history for the inputs. *)
Fixpoint retire (ins : list string) (cur hist : gmap Z F) : gmap Z F * gmap Z F :=
  match ins with
  | [] => (cur, hist)
  | s :: ins' =>
      let inH := fnvHash s in
      retire ins' (<[inH := fzero]> cur) (<[inH := cash cur inH]> hist)
  end.

Definition Finalise (ins : list string) (o : OPIC) : OPIC :=
  let '(cur, hist) := retire ins (current o) (history o) in
  {| dirty := true; current := cur; cleared := cleared o; history := hist |}.

Definition GetN (v : Z) (o : OPIC) : F * F * Time :=
  (cash (history o) v, cash (current o) v, instant (cleared o) v).

Definition Get (s : string) (o : OPIC) : F * F * Time := GetN (fnvHash s) o.

Definition EstimateN (v : Z) (interval : Duration) (t : Time) (o : OPIC) : F :=
  let '(h, c, vt) := GetN v o in
  let d := Sub t vt in
  if d <? interval
  then (h * (float64 interval - float64 d) / float64 interval + c)%fl
  else (c * (float64 interval / float64 d))%fl.

Definition Estimate (s : string) (interval : Duration) (t : Time) (o : OPIC) : F :=
  EstimateN (fnvHash s) interval t o.

(** [r := make([]float64, len(v)); for i, n := range v { r[i] = est(n) }]:
    the loop of [EstimateNV] and [EstimateV], from position [i] on. *)
Fixpoint estimates {A} (est : A → F) (i : nat) (v : list A) (r : list F) : list F :=
  match v with
  | [] => r
  | n :: v' => estimates est (S i) v' (<[i := est n]> r)
  end.

Definition EstimateNV (v : list Z) (interval : Duration) (t : Time) (o : OPIC) : list F :=
  estimates (λ n, EstimateN n interval t o) 0 v (replicate (length v) fzero).

Definition EstimateV (v : list string) (interval : Duration) (t : Time) (o : OPIC)
    : list F :=
  estimates (λ n, Estimate n interval t o) 0 v (replicate (length v) fzero).

Definition Dirty (o : OPIC) : bool := dirty o.

Definition Virtual (o : OPIC) : F * F := (cash (history o) 0, cash (current o) 0).

(** [for _, v := range m { r += v }]. Go leaves the order of a [range] over
    a map open; [rangeSum] takes the values in the order they are visited.
    [total] and [Sums] visit in the order of [map_to_list]: they are the
    answer of the loops for that one order. *)
Definition rangeSum (vs : list F) : F := foldl fadd fzero vs.

Definition total (m : gmap Z F) : F := rangeSum (map_to_list m).*2.

Definition Sums (o : OPIC) : F * F := (total (history o), total (current o)).

(** The two loops of [Sums] with their visiting orders written out: [hv] and
    [cv] list the entries of [history] and of [current] as the loops meet
    them. [Sums_answers o r] says that [r] is what [Sums] answers on [o] for
    some visiting orders. In exact arithmetic there is one answer; on
    [float64], where the sum is rounded at each step, there can be several. *)
Definition SumsIn (hv cv : list (Z * F)) : F * F :=
  (rangeSum hv.*2, rangeSum cv.*2).

Definition Sums_answers (o : OPIC) (r : F * F) : Prop :=
  ∃ hv cv, hv ≡ₚ map_to_list (history o) ∧ cv ≡ₚ map_to_list (current o)
           ∧ r = SumsIn hv cv.

(** EnsureBalance "tops up" the cash in the system. *)
Definition EnsureBalance (n : F) (o : OPIC) : OPIC :=
  let '(r1, r2) := Sums o in
  let cur := if (r1 + r2 <? n)%fl
             then <[0 := (cash (current o) 0 + (n - (r1 + r2)))%fl]> (current o)
             else current o in
  {| dirty := true; current := cur; cleared := cleared o; history := history o |}.

End Ledger.

Arguments OPIC F : clear implicits.

(** ** What the specification says of [Estimate]

    The estimate as the specification words it, as a function of the elapsed
    time [d]: [h * (interval - d) / interval + c] when [d < interval], and
    [c * (interval / d)] otherwise. *)

Definition estimate_spec {F : Type} `{Float64 F} (h c : F) (interval d : Z) : F :=
  if d <? interval
  then (h * (float64 interval - float64 d) / float64 interval + c)%fl
  else (c * (float64 interval / float64 d))%fl.

(** ** Runs of the ledger in exact arithmetic

    [credits k out] counts how often the loop of [Distribute] credits key [k].

    [conserved C o] is the conservation invariant as the specification words
    it: the sum over all entries of [current[k] + history[k]] is [C].

    [retired R hist] is the history held by the keys in [R], the identifiers
    that were finalised. [run C R o]: the ledger [o] is reached from the empty
    ledger by initialising [C] over identifiers with pairwise distinct hashes,
    followed by calls of [Distribute], whose source is not the reserved key,
    not one of its own outputs and was not finalised, and calls of [Finalise]
    on pairwise distinct identifiers that were not finalised before. *)

Definition credits (k : Z) (out : list string) : nat :=
  length (filter (λ s, fnvHash s = k) out).

Definition conserved (C : Qc) (o : OPIC Qc) : Prop :=
  (total (current o) + total (history o))%Qc = C.

Definition retired (R : gset Z) (hist : gmap Z Qc) : Qc :=
  rangeSum (cash hist <$> elements R).

(** No entry of the ledger holds negative cash. *)
Definition nonnegative (o : OPIC Qc) : Prop :=
  map_Forall (λ _ v, (0 ≤ v)%Qc) (current o)
  ∧ map_Forall (λ _ v, (0 ≤ v)%Qc) (history o).

Inductive run (C : Qc) : gset Z → OPIC Qc → Prop :=
  | run_Initialise (ids : list string) :
      ids ≠ [] → NoDup (fnvHash <$> ids) → run C ∅ (Initialise C ids New)
  | run_Distribute (R : gset Z) (o : OPIC Qc) source out t now :
      run C R o →
      fnvHash source ≠ 0 →
      fnvHash source ∉ fnvHash <$> out →
      fnvHash source ∉ R →
      run C R (Distribute source out t now o).2
  | run_Finalise (R : gset Z) (o : OPIC Qc) ins :
      run C R o →
      NoDup (fnvHash <$> ins) →
      (∀ s, s ∈ ins → fnvHash s ∉ R) →
      run C (list_to_set (fnvHash <$> ins) ∪ R) (Finalise ins o).

(** ** The binary codec ([serialisable.go])

    The codec is the program's own: it works on [float64], here binary64. *)

(** [math.Float64bits] and [math.Float64frombits]: the IEEE-754 image of a
    [float64]. Rocq's binary64 has one NaN; it is given the bits of Go's
    [math.NaN()]. *)
Definition signbit (s : bool) : Z := if s then 2 ^ 63 else 0.

Definition Float64bits (x : float) : Z :=
  match Prim2SF x with
  | S754_zero s => signbit s
  | S754_infinity s => signbit s + 2047 * 2 ^ 52
  | S754_nan => 2047 * 2 ^ 52 + 2 ^ 51 + 1
  | S754_finite s m e => signbit s + (e + 1074) * 2 ^ 52 + Z.pos m
  end.

Definition Float64frombits (b : Z) : float :=
  let s := 2 ^ 63 <=? b in
  let e := (b / 2 ^ 52) mod 2 ^ 11 in
  let frac := b mod 2 ^ 52 in
  SF2Prim
    (if e =? 2047 then (if frac =? 0 then S754_infinity s else S754_nan)
     else if e =? 0 then
       match frac with Z.pos m => S754_finite s m (- 1074) | _ => S754_zero s end
     else
       match frac + 2 ^ 52 with Z.pos m => S754_finite s m (e - 1075) | _ => S754_nan end).

(** Bytes. *)
#[export] Instance byte_eq_decision : EqDecision byte := Byte.byte_eq_dec.

Definition Z_of_byte (b : byte) : Z := Z.of_N (Byte.to_N b).
Definition byte_of_Z (z : Z) : byte := default Byte.x00 (Byte.of_N (Z.to_N (z mod 256))).

(** [binary.BigEndian]: [k] bytes, most significant first. *)
Fixpoint PutUint (k : nat) (v : Z) : list byte :=
  match k with
  | O => []
  | S k' => PutUint k' (v / 256) ++ [byte_of_Z v]
  end.

Definition Uint (bs : list byte) : Z := foldl (λ acc b, acc * 256 + Z_of_byte b) 0 bs.

Definition PutUint64 (v : Z) : list byte := PutUint 8 v.

(** The conversions [int64(u)] of a [uint64] and [uint64(i)] of an [int64]. *)
Definition int64 (z : Z) : Z := (z + 2 ^ 63) mod 2 ^ 64 - 2 ^ 63.

(** [Time.Unix]: seconds since January 1, 1970 UTC; and [time.Unix(sec, 0)]. *)
Definition unixToInternal : Z := 62135596800.
Definition Unix (t : Time) : Z := int64 (t / 10 ^ 9 - unixToInternal).
Definition timeUnix (sec : Z) : Time := int64 (sec + unixToInternal) * 10 ^ 9.

Fixpoint bytes_of_string (s : string) : list byte :=
  match s with
  | EmptyString => []
  | String c s' => Ascii.byte_of_ascii c :: bytes_of_string s'
  end.

Definition expectedMagic : string := "#opicdb#".

Inductive error :=
  | EOF
  | ErrUnexpectedEOF
  | ErrInvalidMagic
  | ErrInvalidVersion (v : Z)
  | ENOENT
  | EEXIST
  | EXDEV.

(** *** Decoding

    A decoder runs over the rest of the input, the number [n] of bytes read
    so far and the ledger it fills; what it has done up to an error stays
    done. *)

Record decoder := mkDecoder {
  input : list byte;
  nread : Z;
  target : OPIC float
}.

Definition Dec (A : Type) : Type := decoder → (error + A) * decoder.

#[export] Instance Dec_ret : MRet Dec := λ A x d, (inr x, d).
#[export] Instance Dec_bind : MBind Dec := λ A B f m d,
  match m d with
  | (inl e, d') => (inl e, d')
  | (inr x, d') => f x d'
  end.

Definition failWith {A} (e : error) : Dec A := λ d, (inl e, d).

(** [binary.Read] of [k] bytes, followed by [n += k]: [io.ReadFull] answers
    [EOF] when nothing is left and [ErrUnexpectedEOF] when too little is. *)
Definition binaryRead (k : nat) : Dec (list byte) := λ d,
  match input d with
  | [] => (inl EOF, d)
  | _ =>
      if (length (input d) <? k)%nat then (inl ErrUnexpectedEOF, d)
      else (inr (take k (input d)),
            {| input := drop k (input d);
               nread := nread d + Z.of_nat k;
               target := target d |})
  end.

Definition update (f : OPIC float → OPIC float) : Dec unit := λ d,
  (inr (), {| input := input d; nread := nread d; target := f (target d) |}).

Definition setCurrent (k : Z) (v : float) (o : OPIC float) : OPIC float :=
  {| dirty := dirty o; current := <[k := v]> (current o);
     cleared := cleared o; history := history o |}.

Definition setHistory (k : Z) (v : float) (o : OPIC float) : OPIC float :=
  {| dirty := dirty o; current := current o;
     cleared := cleared o; history := <[k := v]> (history o) |}.

(** the field is called [fetched] in [serialisable.go] and [cleared] in
    [opic.go] *)
Definition setCleared (k : Z) (v : Time) (o : OPIC float) : OPIC float :=
  {| dirty := dirty o; current := current o;
     cleared := <[k := v]> (cleared o); history := history o |}.

(** [for i := uint64(0); i < c; i++ { body }] *)
Fixpoint times (c : nat) (body : Dec unit) : Dec unit :=
  match c with
  | O => mret ()
  | S c' => body ≫= λ _, times c' body
  end.

(** one [struct { K uint64; V float64 }], or [V int64] *)
Definition readEntry (store : Z → Z → OPIC float → OPIC float) : Dec unit :=
  e ← binaryRead 16;
  update (store (Uint (take 8 e)) (Uint (drop 8 e))).

Definition readSection (store : Z → Z → OPIC float → OPIC float) : Dec unit :=
  c ← binaryRead 8;
  times (Z.to_nat (Uint c)) (readEntry store).

(** What a section with the entries [es] leaves in the ledger: every entry is
    stored, in order, with its key and value as the 8 bytes carry them. *)
Definition fill {V} (store : Z → Z → OPIC float → OPIC float) (enc : V → Z)
    (es : list (Z * V)) (o : OPIC float) : OPIC float :=
  foldl (λ o' e, store (wrap64 e.1) (wrap64 (enc e.2)) o') o es.

Definition decode : Dec unit :=
  magic ← binaryRead 8;
  if decide (magic = bytes_of_string expectedMagic) then
    v ← binaryRead 8;
    if decide (Uint v = 1) then
      readSection (λ k v, setCurrent k (Float64frombits v));;
      readSection (λ k v, setHistory k (Float64frombits v));;
      readSection (λ k v, setCleared k (timeUnix (int64 v)))
    else failWith (ErrInvalidVersion (Uint v))
  else failWith ErrInvalidMagic.

(** [ReadFrom] answers the number of bytes read and the error, if any; the
    ledger is updated in place. *)
Definition ReadFrom (r : list byte) (o : OPIC float) : Z * option error * OPIC float :=
  match decode {| input := r; nread := 0; target := o |} with
  | (inl e, d) => (nread d, Some e, target d)
  | (inr _, d) => (nread d, None, target d)
  end.

(** A decoder [m] reads a shortened input safely: whenever it succeeds on
    [p ++ q], then on [p] alone it either succeeds in the same way, leaving
    [q] unread, or it fails for want of input. *)
Definition reads_prefix {A} (m : Dec A) : Prop :=
  ∀ p q n o a d2,
    m {| input := p ++ q; nread := n; target := o |} = (inr a, d2) →
    (∃ p', input d2 = p' ++ q
           ∧ m {| input := p; nread := n; target := o |}
             = (inr a, {| input := p'; nread := nread d2; target := target d2 |}))
    ∨ (∃ e d', m {| input := p; nread := n; target := o |} = (inl e, d')
               ∧ (e = EOF ∨ e = ErrUnexpectedEOF)).

(** A decoder [m] leaves the dirty flag of the ledger as it is. *)
Definition keeps_flag {A} (m : Dec A) : Prop :=
  ∀ d r d', m d = (r, d') → dirty (target d') = dirty (target d).

(** *** Encoding

    The writer is a buffer. The three loops range over the maps in an order
    that Go leaves open: [WriteToIn] takes the entries as they are visited. *)

Definition putEntries {V} (enc : V → Z) (es : list (Z * V)) : list byte :=
  PutUint64 (Z.of_nat (length es))
  ++ concat ((λ e, PutUint64 e.1 ++ PutUint64 (enc e.2)) <$> es).

Definition WriteToIn (cs hs : list (Z * float)) (fs : list (Z * Time)) : list byte :=
  bytes_of_string expectedMagic
  ++ PutUint64 1
  ++ putEntries Float64bits cs
  ++ putEntries Float64bits hs
  ++ putEntries Unix fs.

Definition WriteTo (o : OPIC float) : Z * list byte :=
  let w := WriteToIn (map_to_list (current o)) (map_to_list (history o))
             (map_to_list (cleared o)) in
  (Z.of_nat (length w), w).

(** What the types say of a map of the ledger: its keys are [uint64], its
    length is an [int]. *)
Definition uint64_keys {V} (m : gmap Z V) : Prop :=
  map_Forall (λ k _, 0 ≤ k < 2 ^ 64) m ∧ Z.of_nat (size m) < 2 ^ 63.

Definition well_typed (o : OPIC float) : Prop :=
  uint64_keys (current o) ∧ uint64_keys (history o) ∧ uint64_keys (cleared o).

(** The keys of the three maps are [uint64]. *)
Definition keys_uint64 {F : Type} (o : OPIC F) : Prop :=
  map_Forall (λ k _, 0 ≤ k < 2 ^ 64) (current o)
  ∧ map_Forall (λ k _, 0 ≤ k < 2 ^ 64) (history o)
  ∧ map_Forall (λ k _, 0 ≤ k < 2 ^ 64) (cleared o).

Definition MarshalBinary (o : OPIC float) : list byte := (WriteTo o).2.

Definition UnmarshalBinary (d : list byte) (o : OPIC float) : option error * OPIC float :=
  let '(_, err, o') := ReadFrom d o in (err, o').

(** ** Persistence ([persistent.go]) *)

(** Persistent extends the ledger with the file it is kept in. *)
Record Persistent := mkPersistent {
  ledger : OPIC float;
  filename : string
}.

Definition NewPersistent (name : string) : Persistent :=
  {| ledger := New; filename := name |}.

Definition setDirty (b : bool) (o : OPIC float) : OPIC float :=
  {| dirty := b; current := current o; cleared := cleared o; history := history o |}.

(** The file system: the regular files by path, and for every path the device
    (the mounted file system) it lies on. *)
Record FS := mkFS {
  files : gmap string (list byte);
  device : string → nat
}.

(** [os.OpenFile(name, os.O_RDONLY, 0644)], the file then read to its end. *)
Definition OpenFile (name : string) (fs : FS) : error + list byte :=
  match files fs !! name with
  | Some content => inr content
  | None => inl ENOENT
  end.

(** Load loads the state from the file associated with this instance. *)
Definition Load (p : Persistent) (fs : FS) : option error * Persistent :=
  match OpenFile (filename p) fs with
  | inl err => (Some err, p)
  | inr f =>
      match ReadFrom f (ledger p) with
      | (_, Some err, o) => (Some err, {| ledger := o; filename := filename p |})
      | (_, None, o) => (None, {| ledger := setDirty false o; filename := filename p |})
      end
  end.

Record PersistentLoadOptions := mkPersistentLoadOptions {
  IgnoreMissing : bool
}.

(** Modelled from the spec: the [Load] that [main] calls takes a
    [PersistentLoadOptions]; that version of [persistent.go] is missing, the
    one at hand takes no options. With "ignore missing" and no file, the
    ledger is left as it is and there is no error; everything else is [Load]
    as above. *)
Definition LoadWith (options : PersistentLoadOptions) (p : Persistent) (fs : FS)
    : option error * Persistent :=
  match OpenFile (filename p) fs with
  | inl ENOENT => if IgnoreMissing options then (None, p) else Load p fs
  | _ => Load p fs
  end.

(** [ioutil.TempFile("", "opic")]: a new, empty file in the default directory
    for temporary files; [tmp] is the name that is picked there. *)
Definition TempFile (tmp : string) (fs : FS) : error + FS :=
  match files fs !! tmp with
  | Some _ => inl EEXIST
  | None => inr {| files := <[tmp := []]> (files fs); device := device fs |}
  end.

Definition WriteFile (name : string) (bs : list byte) (fs : FS) : FS :=
  {| files := <[name := default [] (files fs !! name) ++ bs]> (files fs);
     device := device fs |}.

(** [os.Rename]: [rename(2)] replaces [newpath] in one step, and refuses to
    move a file to another device. *)
Definition Rename (oldpath newpath : string) (fs : FS) : error + FS :=
  match files fs !! oldpath with
  | None => inl ENOENT
  | Some content =>
      if decide (device fs oldpath = device fs newpath)
      then inr {| files := <[newpath := content]> (delete oldpath (files fs));
                  device := device fs |}
      else inl EXDEV
  end.

(** Save saves the state to the file associated with this instance. Next to
    the error and the instance, it answers the states the file system went
    through, one per system call, in order. *)
Definition Save (tmp : string) (p : Persistent) (fs : FS)
    : option error * Persistent * list FS :=
  match TempFile tmp fs with
  | inl err => (Some err, p, [])
  | inr fs1 =>
      let fs2 := WriteFile tmp (WriteTo (ledger p)).2 fs1 in
      match Rename tmp (filename p) fs2 with
      | inl err => (Some err, p, [fs1; fs2])
      | inr fs3 =>
          (None, {| ledger := setDirty false (ledger p); filename := filename p |},
           [fs1; fs2; fs3])
      end
  end.

(** ** The import of the command line tool ([main])

    The tool reads the import file line by line and keeps, of every line, what
    stands before the first tab, once the line's trailing blanks and line
    ends are cut. *)

(** The answers of [r.ReadString('\n')], one after the other, up to and
    including the one that comes with [io.EOF]: every answer but the last
    ends with the delimiter, the last is what is left, possibly nothing. *)
Fixpoint readStrings (delim : Ascii.ascii) (r : string) : list string :=
  match r with
  | EmptyString => [EmptyString]
  | String c r' =>
      if decide (c = delim) then String c EmptyString :: readStrings delim r'
      else match readStrings delim r' with
           | l :: ls => String c l :: ls
           | [] => [String c EmptyString]
           end
  end.

Fixpoint contains (cutset : string) (c : Ascii.ascii) : bool :=
  match cutset with
  | EmptyString => false
  | String c' cutset' => bool_decide (c = c') || contains cutset' c
  end.

(** [strings.TrimRight(s, cutset)]: [s] without its trailing characters that
    are in [cutset]. *)
Fixpoint TrimRight (s cutset : string) : string :=
  match s with
  | EmptyString => EmptyString
  | String c s' =>
      match TrimRight s' cutset with
      | EmptyString => if contains cutset c then EmptyString else String c EmptyString
      | t => String c t
      end
  end.

(** [strings.SplitN(s, sep, 2)[0]] for a separator of one character: [s] up
    to its first separator, all of [s] when it has none. *)
Fixpoint firstField (sep : Ascii.ascii) (s : string) : string :=
  match s with
  | EmptyString => EmptyString
  | String c s' => if decide (c = sep) then EmptyString else String c (firstField sep s')
  end.

(** How often the character [c] occurs in [s]. *)
Fixpoint occurrences (c : Ascii.ascii) (s : string) : nat :=
  match s with
  | EmptyString => 0
  | String c' s' => (if decide (c' = c) then 1 else 0) + occurrences c s'
  end.

Definition newline : Ascii.ascii := Ascii.ascii_of_nat 10.
Definition tab : Ascii.ascii := Ascii.ascii_of_nat 9.
Definition blanks : string :=
  String (Ascii.ascii_of_nat 32)
    (String (Ascii.ascii_of_nat 13) (String newline EmptyString)).

(** The [initialURLs] that [main] collects from the import file. *)
Definition initialURLs (content : string) : list string :=
  (λ l, firstField tab (TrimRight l blanks)) <$> readStrings newline content.

(** The [-import] branch of [main] on the instance it has loaded. *)
Definition importFile (initialise : float) (content : string) (a : Persistent)
    : Persistent :=
  {| ledger := Initialise initialise (initialURLs content) (ledger a);
     filename := filename a |}.

(** * Properties *)

(** ** Reading the maps *)

Section Reads.
Context {F : Type} {arith : Float64 F}.
Implicit Types (m cur : gmap Z F) (clr : gmap Z Time) (k : Z) (v : F).

Lemma cash_insert_eq m k v : cash (<[k := v]> m) k = v.
Proof. unfold cash. by rewrite lookup_insert_eq. Qed.

Lemma cash_insert_ne m k k' v : k ≠ k' → cash (<[k := v]> m) k' = cash m k'.
Proof. intros. unfold cash. by rewrite lookup_insert_ne. Qed.

(** A key that is not an output keeps its cash through the loop. *)
Lemma credit_cash_absent share now i out cur clr k :
  k ∉ fnvHash <$> out → cash (credit share now i out cur clr).1 k = cash cur k.
Proof.
  revert i cur clr. induction out as [|s out IH]; intros i cur clr Hk; [done|].
  rewrite fmap_cons, not_elem_of_cons in Hk. destruct Hk as [Hs Hk].
  cbn [credit]. rewrite IH by done. by apply cash_insert_ne.
Qed.

(** The loop creates the entries of the outputs, and no other. *)
Lemma credit_dom share now i out cur clr :
  dom (credit share now i out cur clr).1 = list_to_set (fnvHash <$> out) ∪ dom cur.
Proof.
  revert i cur clr. induction out as [|s out IH]; intros i cur clr.
  - simpl. by rewrite (left_id_L ∅ (∪)).
  - cbn [credit]. rewrite IH, dom_insert_L, fmap_cons, list_to_set_cons.
    rewrite !(assoc_L (∪)). f_equal. apply (comm_L (∪)).
Qed.
End Reads.

(** ** Sums in exact arithmetic *)

Section Exact.
Implicit Types (m cur hist : gmap Z Qc) (clr : gmap Z Time) (k : Z) (v x y : Qc).
Local Open Scope Qc_scope.

Lemma rangeSum_foldl (l : list Qc) (a : Qc) : foldl Qcplus a l = a + rangeSum l.
Proof.
  unfold rangeSum; simpl. revert a.
  induction l as [|x l IH] using rev_ind; intros a.
  - simpl. ring.
  - rewrite !foldl_app; simpl. rewrite IH. ring.
Qed.

Lemma rangeSum_cons x (l : list Qc) : rangeSum (x :: l) = x + rangeSum l.
Proof. unfold rangeSum at 1; simpl. rewrite rangeSum_foldl. ring. Qed.

(** In exact arithmetic the order of a [range] over a map does not matter. *)
Lemma rangeSum_perm (l1 l2 : list Qc) : l1 ≡ₚ l2 → rangeSum l1 = rangeSum l2.
Proof.
  induction 1 as [|x l1 l2 _ IH|x y l|l1 l2 l3 _ IH1 _ IH2].
  - done.
  - by rewrite !rangeSum_cons, IH.
  - rewrite !rangeSum_cons. ring.
  - by rewrite IH1.
Qed.

Lemma total_empty : total (∅ : gmap Z Qc) = 0.
Proof. unfold total. by rewrite map_to_list_empty. Qed.

Lemma total_insert_fresh m k v : m !! k = None → total (<[k := v]> m) = v + total m.
Proof.
  intros Hk. unfold total.
  rewrite (rangeSum_perm _ (v :: (map_to_list m).*2)).
  - apply rangeSum_cons.
  - by rewrite map_to_list_insert.
Qed.

(** An assignment [m[k] = v] changes the sum by [v - m[k]]. *)
Lemma total_insert m k v : total (<[k := v]> m) = total m - cash m k + v.
Proof.
  unfold cash. destruct (m !! k) as [y|] eqn:Hk; simpl.
  - rewrite <- (insert_delete_eq m k v).
    rewrite <- (insert_delete_id m k y) at 2 by done.
    rewrite !total_insert_fresh by apply lookup_delete_eq. ring.
  - rewrite total_insert_fresh by done. ring.
Qed.

Lemma Qc_of_int_add (a b : Z) : Qc_of_int (a + b) = Qc_of_int a + Qc_of_int b.
Proof.
  apply Qc_is_canon. unfold Qc_of_int. simpl.
  rewrite !Qred_correct, inject_Z_plus. reflexivity.
Qed.

Lemma Qc_of_int_S (n : nat) : Qc_of_int (Z.of_nat (S n)) = Qc_of_int (Z.of_nat n) + 1.
Proof. by rewrite Nat2Z.inj_succ, <- Z.add_1_r, Qc_of_int_add. Qed.

Lemma Qc_of_int_nonzero (a : Z) : a ≠ 0%Z → Qc_of_int a ≠ 0.
Proof.
  intros Ha Hq. apply Ha.
  apply (f_equal Qcanon.this) in Hq. simpl in Hq.
  assert (Hz : (inject_Z a == 0)%Q)
    by (rewrite <- (Qred_correct (inject_Z a)), Hq; reflexivity).
  unfold Qeq in Hz. simpl in Hz. lia.
Qed.

Lemma Qc_of_int_succ_nonzero (n : nat) : Qc_of_int (Z.of_nat n + 1) ≠ 0.
Proof. apply Qc_of_int_nonzero. lia. Qed.
End Exact.

(** ** What [Distribute], [Initialise] and [Finalise] do to the sums *)

Section Conservation.
Implicit Types (m cur hist : gmap Z Qc) (clr : gmap Z Time) (k : Z) (v x y : Qc).
Implicit Types (R : gset Z) (o : OPIC Qc).
Local Open Scope Qc_scope.

Lemma credit_total share now i out cur clr :
  total (credit share now i out cur clr).1
  = total cur + Qc_of_int (Z.of_nat (length out)) * share.
Proof.
  revert i cur clr. induction out as [|s out IH]; intros i cur clr.
  - simpl. change (Qc_of_int (Z.of_nat 0)) with 0. ring.
  - cbn [credit length]. rewrite IH, total_insert, Qc_of_int_S.
    cbn [fadd exact]. ring.
Qed.

Lemma credit_cash share now i out cur clr k :
  cash (credit share now i out cur clr).1 k
  = cash cur k + Qc_of_int (Z.of_nat (credits k out)) * share.
Proof.
  revert i cur clr. induction out as [|s out IH]; intros i cur clr.
  - simpl. change (Qc_of_int (Z.of_nat (credits k []))) with 0. ring.
  - cbn [credit]. rewrite IH. unfold credits. rewrite filter_cons.
    destruct (decide (fnvHash s = k)) as [->|Hne].
    + cbn [length]. rewrite Qc_of_int_S, cash_insert_eq. cbn [fadd exact]. ring.
    + by rewrite cash_insert_ne.
Qed.

Lemma credits_absent k out : k ∉ fnvHash <$> out → credits k out = 0%nat.
Proof.
  intros Hk. unfold credits. induction out as [|s out IH]; [done|].
  rewrite filter_cons. rewrite fmap_cons, not_elem_of_cons in Hk.
  destruct Hk as [Hs Hk].
  destruct (decide (fnvHash s = k)); [congruence|]. by apply IH.
Qed.

Lemma credits_once k out :
  NoDup (fnvHash <$> out) → k ∈ fnvHash <$> out → credits k out = 1%nat.
Proof.
  intros Hnd Hk. unfold credits.
  induction out as [|s out IH]; [by apply elem_of_nil in Hk|].
  rewrite fmap_cons in Hnd, Hk. apply NoDup_cons in Hnd as [Hs Hnd].
  rewrite filter_cons. destruct (decide (fnvHash s = k)) as [Heq|Hne].
  - subst k. cbn [length]. f_equal. by apply credits_absent.
  - apply elem_of_cons in Hk as [?|Hk]; [congruence|]. by apply IH.
Qed.

(** The sum of the current cash after [Distribute], for a source that is
    not the reserved key: what was credited to the source itself is lost
    when its entry is overwritten with the skim. *)
Lemma Distribute_total source out t now o :
  fnvHash source ≠ 0%Z →
  total (current (Distribute source out t now o).2)
  = total (current o)
    - Qc_of_int (Z.of_nat (credits (fnvHash source) out))
      * (cash (current o) (fnvHash source) / Qc_of_int (Z.of_nat (length out) + 1)).
Proof.
  intros Hs. unfold Distribute.
  set (c := cash (current o) (fnvHash source)).
  set (share := (c / float64 (Z.of_nat (length out) + 1))%fl).
  set (cur1 := <[0%Z := _]> (current o)).
  pose proof (credit_total share now 0 out cur1 (cleared o)) as Ht.
  pose proof (credit_cash share now 0 out cur1 (cleared o) (fnvHash source)) as Hc.
  destruct (credit share now 0 out cur1 (cleared o)) as [cur2 clr2]. simpl in Ht, Hc.
  cbn [snd current]. rewrite !total_insert.
  rewrite (cash_insert_ne _ 0%Z) by done.
  rewrite Ht, Hc. subst cur1. rewrite total_insert.
  rewrite (cash_insert_ne _ 0%Z) by done. fold c.
  subst share. cbn [fadd fsub fdiv float64 exact].
  rewrite Qc_of_int_add. change (Qc_of_int 1) with 1.
  pose proof (Qc_of_int_succ_nonzero (length out)) as Hn.
  rewrite Qc_of_int_add in Hn. change (Qc_of_int 1) with 1 in Hn.
  field. split; [exact Hn | apply Qc_of_int_succ_nonzero].
Qed.

Lemma Distribute_history source out t now o :
  history (Distribute source out t now o).2
  = <[fnvHash source := cash (current o) (fnvHash source)]> (history o).
Proof. unfold Distribute. by destruct (credit _ _ _ _ _ _). Qed.

(** [Initialise] over fresh, pairwise distinct keys. *)
Lemma assign_total (n : Qc) (hs : list Z) m :
  NoDup hs → (∀ h, h ∈ hs → m !! h = None) →
  total (foldl (λ cur u, <[u := n]> cur) m hs)
  = total m + Qc_of_int (Z.of_nat (length hs)) * n.
Proof.
  revert m. induction hs as [|h hs IH]; intros m Hnd Hfresh.
  - simpl. change (Qc_of_int (Z.of_nat 0)) with 0. ring.
  - apply NoDup_cons in Hnd as [Hh Hnd]. cbn [foldl length].
    rewrite IH, total_insert_fresh, Qc_of_int_S; [ring|..|done|].
    + apply Hfresh. left.
    + intros h' Hh'. rewrite lookup_insert_ne by (intros ->; done).
      apply Hfresh. by right.
Qed.

Lemma Initialise_total (C : Qc) (ids : list string) :
  ids ≠ [] → NoDup (fnvHash <$> ids) → total (current (Initialise C ids New)) = C.
Proof.
  intros Hne Hnd. unfold Initialise, InitialiseN. cbn [current New].
  rewrite assign_total, total_empty; [|done|by intros].
  cbn [fdiv float64 exact]. field.
  apply Qc_of_int_nonzero. destruct ids; [done|]. rewrite length_fmap. simpl. lia.
Qed.
End Conservation.

Section Retired.
Implicit Types (m cur hist : gmap Z Qc) (k : Z) (v x y : Qc).
Implicit Types (R : gset Z) (o : OPIC Qc).
Local Open Scope Qc_scope.

Lemma retired_empty hist : retired ∅ hist = 0.
Proof. unfold retired. by rewrite elements_empty. Qed.

Lemma retired_insert_other R hist k v : k ∉ R → retired R (<[k := v]> hist) = retired R hist.
Proof.
  intros Hk. unfold retired. f_equal. apply list_fmap_ext.
  intros i k' Hk'. apply cash_insert_ne. intros ->.
  apply Hk, elem_of_elements, list_elem_of_lookup. eauto.
Qed.

Lemma retired_add R hist k : k ∉ R → retired ({[k]} ∪ R) hist = cash hist k + retired R hist.
Proof.
  intros Hk. unfold retired.
  rewrite (rangeSum_perm _ (cash hist <$> k :: elements R)).
  - apply rangeSum_cons.
  - by rewrite elements_union_singleton.
Qed.

(** [Finalise] moves cash from [current] to the history of the retired. *)
Lemma retire_moves ins cur hist R :
  NoDup (fnvHash <$> ins) →
  (∀ s, s ∈ ins → fnvHash s ∉ R) →
  total (retire ins cur hist).1
  + retired (list_to_set (fnvHash <$> ins) ∪ R) (retire ins cur hist).2
  = total cur + retired R hist.
Proof.
  revert cur hist R. induction ins as [|s ins IH]; intros cur hist R Hnd Hout.
  - simpl. by rewrite (left_id_L ∅ (∪)).
  - rewrite fmap_cons in Hnd. apply NoDup_cons in Hnd as [Hs Hnd].
    cbn [retire]. rewrite fmap_cons, list_to_set_cons.
    replace ({[fnvHash s]} ∪ list_to_set (fnvHash <$> ins) ∪ R)
      with (list_to_set (fnvHash <$> ins) ∪ ({[fnvHash s]} ∪ R) : gset Z)
      by (rewrite !(assoc_L (∪)); f_equal; apply (comm_L (∪))).
    assert (HsR : fnvHash s ∉ R) by (apply Hout; left).
    rewrite IH.
    + rewrite total_insert, retired_add, cash_insert_eq, retired_insert_other by done.
      cbn [fzero exact]. ring.
    + done.
    + intros s' Hs'. apply not_elem_of_union. split.
      * intros Heq%elem_of_singleton. apply Hs. rewrite <- Heq.
        by apply list_elem_of_fmap_2.
      * apply Hout. by right.
Qed.
End Retired.

(** ** The IEEE-754 image of a [float64] *)

Section Bits.
Lemma digits2_pos_bounds (m : positive) :
  2 ^ (Z.pos (digits2_pos m) - 1) ≤ Z.pos m < 2 ^ Z.pos (digits2_pos m).
Proof.
  induction m as [m IH|m IH|]; cbn [digits2_pos].
  - rewrite Pos2Z.inj_succ.
    replace (Z.succ (Z.pos (digits2_pos m)) - 1)
      with (Z.succ (Z.pos (digits2_pos m) - 1)) by lia.
    rewrite !Z.pow_succ_r by lia. lia.
  - rewrite Pos2Z.inj_succ.
    replace (Z.succ (Z.pos (digits2_pos m)) - 1)
      with (Z.succ (Z.pos (digits2_pos m) - 1)) by lia.
    rewrite !Z.pow_succ_r by lia. lia.
  - simpl. lia.
Qed.

(** What [valid_binary] says of a finite binary64 number: the exponent is in
    range, the mantissa has at most 53 bits, and fewer only for the least
    exponent. *)
Lemma bounded_binary64 (m : positive) (e : Z) :
  bounded prec emax m e = true →
  - 1074 ≤ e ≤ 971 ∧ Z.pos m < 2 ^ 53 ∧ (Z.pos m < 2 ^ 52 → e = - 1074).
Proof.
  unfold bounded, canonical_mantissa, fexp, SpecFloat.emin, prec, emax.
  intros [Hc He]%andb_prop. apply Z.eqb_eq in Hc. apply Z.leb_le in He.
  pose proof (digits2_pos_bounds m) as [Hlo Hhi].
  set (d := Z.pos (digits2_pos m)) in *.
  assert (Hd : 0 < d) by (subst d; lia).
  assert (Hd53 : d ≤ 53) by lia.
  split; [lia|]. split.
  - eapply Z.lt_le_trans; [exact Hhi|]. apply Z.pow_le_mono_r; lia.
  - intros Hm. destruct (decide (d = 53)) as [Heq|Hne]; [|lia].
    rewrite Heq in Hlo. simpl in Hlo. lia.
Qed.

Lemma split_bits (q r : Z) :
  0 ≤ r < 2 ^ 52 → (q * 2 ^ 52 + r) / 2 ^ 52 = q ∧ (q * 2 ^ 52 + r) mod 2 ^ 52 = r.
Proof.
  intros Hr. split.
  - symmetry. apply (Z.div_unique _ _ q r); lia.
  - symmetry. apply (Z.mod_unique _ _ q r); lia.
Qed.

(** [math.Float64frombits(math.Float64bits(x)) == x], bit for bit. *)
Lemma Float64frombits_bits (x : float) : Float64frombits (Float64bits x) = x.
Proof.
  rewrite <- (SF2Prim_Prim2SF x) at 2.
  pose proof (Prim2SF_valid x) as Hv.
  unfold Float64frombits, Float64bits. f_equal.
  destruct (Prim2SF x) as [s|s| |s m e]; [by destruct s..| |].
  - reflexivity.
  - apply bounded_binary64 in Hv as (He & Hm & Hsub).
    assert (Hs : (2 ^ 63 <=? signbit s + (e + 1074) * 2 ^ 52 + Z.pos m) = s).
    { destruct s; unfold signbit; [apply Z.leb_le|apply Z.leb_gt]; lia. }
    rewrite Hs.
    destruct (decide (Z.pos m < 2 ^ 52)) as [Hlt|Hge].
    + rewrite (Hsub Hlt).
      replace (signbit s + (- 1074 + 1074) * 2 ^ 52 + Z.pos m)
        with ((if s then 2 ^ 11 else 0) * 2 ^ 52 + Z.pos m)
        by (destruct s; unfold signbit; lia).
      destruct (split_bits (if s then 2 ^ 11 else 0) (Z.pos m)) as [-> ->]; [lia|].
      by destruct s.
    + replace (signbit s + (e + 1074) * 2 ^ 52 + Z.pos m)
        with (((if s then 2 ^ 11 else 0) + (e + 1075)) * 2 ^ 52 + (Z.pos m - 2 ^ 52))
        by (destruct s; unfold signbit; lia).
      destruct (split_bits ((if s then 2 ^ 11 else 0) + (e + 1075)) (Z.pos m - 2 ^ 52))
        as [-> ->]; [lia|].
      assert (He' : ((if s then 2 ^ 11 else 0) + (e + 1075)) mod 2 ^ 11 = e + 1075).
      { destruct s.
        - rewrite Z.add_comm, <- (Z.mul_1_l (2 ^ 11)), Z.mod_add by lia.
          apply Z.mod_small. lia.
        - apply Z.mod_small. lia. }
      rewrite He'.
      destruct (e + 1075 =? 2047) eqn:E1; [apply Z.eqb_eq in E1; lia|].
      destruct (e + 1075 =? 0) eqn:E2; [apply Z.eqb_eq in E2; lia|].
      replace (Z.pos m - 2 ^ 52 + 2 ^ 52) with (Z.pos m) by lia.
      f_equal. lia.
Qed.

Lemma Float64bits_range (x : float) : 0 ≤ Float64bits x < 2 ^ 64.
Proof.
  pose proof (Prim2SF_valid x) as Hv. unfold Float64bits.
  destruct (Prim2SF x) as [s|s| |s m e]; [destruct s; unfold signbit; lia..| |].
  - lia.
  - apply bounded_binary64 in Hv as (He & Hm & Hsub).
    destruct s; unfold signbit; nia.
Qed.
End Bits.

(** ** Big-endian integers *)

Section BigEndian.
Lemma Z_of_byte_of_Z (z : Z) : Z_of_byte (byte_of_Z z) = z mod 256.
Proof.
  unfold Z_of_byte, byte_of_Z.
  pose proof (Z.mod_pos_bound z 256 ltac:(lia)) as Hz.
  destruct (Byte.of_N (Z.to_N (z mod 256))) as [b|] eqn:E; simpl.
  - apply Byte.to_of_N in E. lia.
  - apply Byte.of_N_None_iff in E. lia.
Qed.

Lemma length_PutUint (k : nat) (v : Z) : length (PutUint k v) = k.
Proof.
  revert v. induction k as [|k IH]; intros v; [done|].
  cbn [PutUint]. rewrite length_app, IH. simpl. lia.
Qed.

Lemma Uint_snoc (bs : list byte) (b : byte) : Uint (bs ++ [b]) = Uint bs * 256 + Z_of_byte b.
Proof. unfold Uint. by rewrite foldl_app. Qed.

Lemma Uint_PutUint (k : nat) (v : Z) : Uint (PutUint k v) = v mod 256 ^ Z.of_nat k.
Proof.
  revert v. induction k as [|k IH]; intros v.
  - simpl. by rewrite Z.mod_1_r.
  - cbn [PutUint]. rewrite Uint_snoc, IH, Z_of_byte_of_Z.
    rewrite Nat2Z.inj_succ, Z.pow_succ_r by lia.
    rewrite (Z.rem_mul_r v 256 (256 ^ Z.of_nat k)) by lia. lia.
Qed.

Lemma Uint_PutUint64 (v : Z) : 0 ≤ v < 2 ^ 64 → Uint (PutUint64 v) = v.
Proof.
  intros Hv. unfold PutUint64. rewrite Uint_PutUint.
  change (256 ^ Z.of_nat 8) with (2 ^ 64). by apply Z.mod_small.
Qed.

Lemma int64_range (z : Z) : - 2 ^ 63 ≤ int64 z < 2 ^ 63.
Proof. unfold int64. pose proof (Z.mod_pos_bound (z + 2 ^ 63) (2 ^ 64)). lia. Qed.

Lemma int64_small (z : Z) : - 2 ^ 63 ≤ z < 2 ^ 63 → int64 z = z.
Proof. intros Hz. unfold int64. rewrite Z.mod_small; lia. Qed.

(** An [int64] written as 8 bytes and read back. *)
Lemma int64_Uint_PutUint64 (z : Z) : - 2 ^ 63 ≤ z < 2 ^ 63 → int64 (Uint (PutUint64 z)) = z.
Proof.
  intros Hz. unfold PutUint64. rewrite Uint_PutUint.
  change (256 ^ Z.of_nat 8) with (2 ^ 64). unfold int64.
  rewrite Zplus_mod_idemp_l. rewrite Z.mod_small; lia.
Qed.

(** A whole number of seconds, within the years that [Unix] can count,
    survives. *)
Lemma timeUnix_Unix (t : Time) :
  - 2 ^ 63 + unixToInternal ≤ t / 10 ^ 9 < 2 ^ 63 →
  timeUnix (Unix t) = t / 10 ^ 9 * 10 ^ 9.
Proof.
  unfold timeUnix, Unix, unixToInternal. intros Ht.
  rewrite (int64_small (t / 10 ^ 9 - _)) by lia.
  rewrite int64_small by lia. f_equal. lia.
Qed.
End BigEndian.

(** ** Decoding what was encoded *)

Section Decoding.
Implicit Types (o : OPIC float) (rest bs : list byte) (n : Z).

Lemma binaryRead_app (k : nat) bs rest n o :
  length bs = k → (0 < k)%nat →
  binaryRead k {| input := bs ++ rest; nread := n; target := o |}
  = (inr bs, {| input := rest; nread := n + Z.of_nat k; target := o |}).
Proof.
  intros Hlen Hk. unfold binaryRead. cbn [input nread target].
  destruct (bs ++ rest) as [|b l] eqn:E.
  - apply app_eq_nil in E as [-> _]. simpl in Hlen. lia.
  - rewrite <- E. clear E b l.
    assert ((length (bs ++ rest) <? k)%nat = false) as ->
      by (apply Nat.ltb_ge; rewrite length_app; lia).
    by rewrite take_app_length', drop_app_length'.
Qed.

Lemma readEntry_put store (k v : Z) rest n o :
  readEntry store
    {| input := (PutUint64 k ++ PutUint64 v) ++ rest; nread := n; target := o |}
  = (inr (), {| input := rest; nread := n + 16;
                target := store (wrap64 k) (wrap64 v) o |}).
Proof.
  unfold readEntry, mbind, Dec_bind.
  rewrite binaryRead_app;
    [|by rewrite length_app; unfold PutUint64; rewrite !length_PutUint|lia].
  unfold update. cbn [input nread target].
  rewrite take_app_length', drop_app_length' by (unfold PutUint64; by rewrite length_PutUint).
  unfold PutUint64. by rewrite !Uint_PutUint.
Qed.

Lemma times_readEntry {V} store (enc : V → Z) (es : list (Z * V)) rest n o :
  times (length es) (readEntry store)
    {| input := concat ((λ e, PutUint64 e.1 ++ PutUint64 (enc e.2)) <$> es) ++ rest;
       nread := n; target := o |}
  = (inr (), {| input := rest; nread := n + 16 * Z.of_nat (length es);
                target := fill store enc es o |}).
Proof.
  revert n o. induction es as [|e es IH]; intros n o.
  - simpl. unfold mret, Dec_ret. replace (n + 16 * Z.of_nat 0) with n by lia. reflexivity.
  - cbn [length times fmap list_fmap concat]. unfold mbind, Dec_bind.
    rewrite <- (app_assoc _ _ rest), readEntry_put.
    fold (@mbind Dec _). rewrite IH. unfold fill. cbn [foldl].
    replace (n + 16 + 16 * Z.of_nat (length es))
      with (n + 16 * Z.of_nat (S (length es))) by lia.
    reflexivity.
Qed.

Lemma readSection_put {V} store (enc : V → Z) (es : list (Z * V)) rest n o :
  Z.of_nat (length es) < 2 ^ 63 →
  readSection store {| input := putEntries enc es ++ rest; nread := n; target := o |}
  = (inr (), {| input := rest; nread := n + 8 + 16 * Z.of_nat (length es);
                target := fill store enc es o |}).
Proof.
  intros Hlen. unfold readSection, putEntries, mbind, Dec_bind.
  rewrite <- app_assoc, binaryRead_app;
    [|by unfold PutUint64; rewrite length_PutUint|lia].
  rewrite Uint_PutUint64, Nat2Z.id by lia.
  by rewrite times_readEntry.
Qed.

(** Decoding an encoded ledger succeeds and stores every entry. *)
Lemma ReadFrom_WriteToIn cs hs fs o :
  Z.of_nat (length cs) < 2 ^ 63 →
  Z.of_nat (length hs) < 2 ^ 63 →
  Z.of_nat (length fs) < 2 ^ 63 →
  ∃ n, ReadFrom (WriteToIn cs hs fs) o
       = (n, None,
          fill (λ k v, setCleared k (timeUnix (int64 v))) Unix fs
            (fill (λ k v, setHistory k (Float64frombits v)) Float64bits hs
               (fill (λ k v, setCurrent k (Float64frombits v)) Float64bits cs o))).
Proof.
  intros Hc Hh Hf. eexists. unfold ReadFrom, WriteToIn, decode, mbind, Dec_bind.
  rewrite binaryRead_app by (vm_compute; done || lia).
  rewrite decide_True by done.
  rewrite binaryRead_app by (vm_compute; done || lia).
  rewrite decide_True by (by vm_compute).
  rewrite readSection_put by done.
  rewrite readSection_put by done.
  rewrite <- (app_nil_r (putEntries Unix fs)), readSection_put by done.
  reflexivity.
Qed.
End Decoding.

(** ** From the entries back to the maps *)

Section Refill.
Context {V W : Type}.
Implicit Types (es : list (Z * V)) (m : gmap Z V) (acc : gmap Z W).

Lemma foldl_insert_union (kf : Z → Z) (vf : V → W) es acc :
  foldl (λ a e, <[kf e.1 := vf e.2]> a) acc es
  = list_to_map (reverse (prod_map kf vf <$> es)) ∪ acc.
Proof.
  revert acc. induction es as [|[k v] es IH]; intros acc.
  - simpl. by rewrite (left_id_L ∅ (∪)).
  - cbn [foldl fmap list_fmap]. rewrite IH, reverse_cons, list_to_map_app.
    cbn [prod_map fst snd list_to_map foldr]. simpl.
    rewrite <- (assoc_L (∪)). f_equal.
    by rewrite insert_union_singleton_l, insert_empty.
Qed.

(** Storing the entries of a map, visited in any order, gives the map. *)
Lemma foldl_insert_map_to_list (kf : Z → Z) (vf : V → W) es m :
  es ≡ₚ map_to_list m →
  (∀ k, is_Some (m !! k) → kf k = k) →
  foldl (λ a e, <[kf e.1 := vf e.2]> a) ∅ es = vf <$> m.
Proof.
  intros Hperm Hkf. rewrite foldl_insert_union, (right_id_L ∅ (∪)).
  assert (prod_map kf vf <$> es = prod_map id vf <$> es) as ->.
  { apply list_fmap_ext. intros i [k v] Hi. unfold prod_map. cbn. f_equal.
    apply Hkf. exists v. apply elem_of_map_to_list. rewrite <- Hperm.
    apply list_elem_of_lookup. eauto. }
  rewrite <- (list_to_map_to_list (vf <$> m)).
  symmetry. apply list_to_map_proper; [apply NoDup_fst_map_to_list|].
  by rewrite map_to_list_fmap, reverse_Permutation, Hperm.
Qed.
End Refill.

Section Filled.
Implicit Types (o : OPIC float).

Lemma fill_current {V} (g : Z → float) (enc : V → Z) (es : list (Z * V)) o :
  fill (λ k v, setCurrent k (g v)) enc es o
  = {| dirty := dirty o;
       current := foldl (λ a e, <[wrap64 e.1 := g (wrap64 (enc e.2))]> a) (current o) es;
       cleared := cleared o;
       history := history o |}.
Proof.
  revert o. induction es as [|e es IH]; intros o; [by destruct o|].
  unfold fill in *. cbn [foldl]. by rewrite IH.
Qed.

Lemma fill_history {V} (g : Z → float) (enc : V → Z) (es : list (Z * V)) o :
  fill (λ k v, setHistory k (g v)) enc es o
  = {| dirty := dirty o;
       current := current o;
       cleared := cleared o;
       history := foldl (λ a e, <[wrap64 e.1 := g (wrap64 (enc e.2))]> a) (history o) es |}.
Proof.
  revert o. induction es as [|e es IH]; intros o; [by destruct o|].
  unfold fill in *. cbn [foldl]. by rewrite IH.
Qed.

Lemma fill_cleared {V} (g : Z → Time) (enc : V → Z) (es : list (Z * V)) o :
  fill (λ k v, setCleared k (g v)) enc es o
  = {| dirty := dirty o;
       current := current o;
       cleared := foldl (λ a e, <[wrap64 e.1 := g (wrap64 (enc e.2))]> a) (cleared o) es;
       history := history o |}.
Proof.
  revert o. induction es as [|e es IH]; intros o; [by destruct o|].
  unfold fill in *. cbn [foldl]. by rewrite IH.
Qed.

Lemma wrap64_small (z : Z) : 0 ≤ z < 2 ^ 64 → wrap64 z = z.
Proof. apply Z.mod_small. Qed.

Lemma length_range {V} (es : list (Z * V)) (m : gmap Z V) :
  es ≡ₚ map_to_list m → uint64_keys m → Z.of_nat (length es) < 2 ^ 63.
Proof. intros -> [_ Hsize]. by rewrite length_map_to_list. Qed.

(** Encoding a ledger and decoding the bytes into an empty ledger: the
    cash is the same, the times are cut to the second. *)
Lemma decode_encode cs hs fs o :
  well_typed o →
  cs ≡ₚ map_to_list (current o) →
  hs ≡ₚ map_to_list (history o) →
  fs ≡ₚ map_to_list (cleared o) →
  ∃ n, ReadFrom (WriteToIn cs hs fs) New
       = (n, None,
          {| dirty := false;
             current := current o;
             cleared := (λ t, timeUnix (Unix t)) <$> cleared o;
             history := history o |}).
Proof.
  intros (Hc & Hh & Hf) Hcs Hhs Hfs.
  destruct (ReadFrom_WriteToIn cs hs fs New) as [n Hn];
    [by eapply length_range..|].
  exists n. rewrite Hn. f_equal.
  rewrite fill_cleared, fill_history, fill_current. cbn [dirty current cleared history New].
  f_equal.
  - rewrite (foldl_insert_map_to_list wrap64
               (λ v, Float64frombits (wrap64 (Float64bits v))) cs (current o)); [|done|].
    + rewrite <- (map_fmap_id (current o)) at 2. apply map_fmap_ext.
      intros k v _. by rewrite wrap64_small, Float64frombits_bits by apply Float64bits_range.
    + intros k [v Hk]. apply wrap64_small. by apply (proj1 Hc k v).
  - rewrite (foldl_insert_map_to_list wrap64
               (λ t, timeUnix (int64 (wrap64 (Unix t)))) fs (cleared o)); [|done|].
    + apply map_fmap_ext. intros k t _. unfold wrap64, Unix.
      pose proof (int64_range (t / 10 ^ 9 - unixToInternal)) as Hr.
      f_equal. unfold int64 at 1. rewrite Zplus_mod_idemp_l.
      fold (int64 (int64 (t / 10 ^ 9 - unixToInternal))). by rewrite int64_small.
    + intros k [v Hk]. apply wrap64_small. by apply (proj1 Hf k v).
  - rewrite (foldl_insert_map_to_list wrap64
               (λ v, Float64frombits (wrap64 (Float64bits v))) hs (history o)); [|done|].
    + rewrite <- (map_fmap_id (history o)) at 2. apply map_fmap_ext.
      intros k v _. by rewrite wrap64_small, Float64frombits_bits by apply Float64bits_range.
    + intros k [v Hk]. apply wrap64_small. by apply (proj1 Hh k v).
Qed.
End Filled.


(** * The claims *)

(** ** C1: the worked scenario *)

(** C1. On binary64, from the empty ledger: [Initialise(3.0, ["a","b","c"])]
    gives a, b and c a current cash of 1.0. In the following
    [Distribute("a", ["b"], t1)] the share is 1.0/2 = 0.5; after the loop the
    reserve holds 0.5, b holds 1.5 and the map has 4 entries; the skim is
    0.5/(4+1) = 0.1; at the end the reserve holds 0.4, a holds 0.1 with
    history 1.0 and cleared time [t1], and the call returns 1.0. The hashes of
    "a", "b" and "c" are pairwise distinct and not the reserved key. *)
Theorem Distribute_scenario (t1 : Time) (now : nat → Time) :
  let o1 : OPIC float := Initialise 3%float ["a"; "b"; "c"] New in
  let share : float :=
    (cash (current o1) (fnvHash "a") / float64 (Z.of_nat (length ["b"]) + 1))%fl in
  let cur1 := <[0 := (cash (current o1) 0 + share)%fl]> (current o1) in
  let cur2 := (credit share now 0 ["b"] cur1 (cleared o1)).1 in
  let d : float := (cash cur2 0 / float64 (Z.of_nat (size cur2) + 1))%fl in
  let r := Distribute "a" ["b"] t1 now o1 in
  NoDup [0; fnvHash "a"; fnvHash "b"; fnvHash "c"]
  ∧ (cash (current o1) (fnvHash "a") = 1
     ∧ cash (current o1) (fnvHash "b") = 1
     ∧ cash (current o1) (fnvHash "c") = 1)%float
  ∧ share = 0.5%float
  ∧ cash cur2 0 = 0.5%float
  ∧ cash cur2 (fnvHash "b") = 1.5%float
  ∧ size cur2 = 4%nat
  ∧ d = 0x1.999999999999ap-4%float
  ∧ Virtual r.2 = (0, 0x1.999999999999ap-2)%float
  ∧ Get "a" r.2 = (1, 0x1.999999999999ap-4, t1)%float
  ∧ cash (current r.2) (fnvHash "b") = 1.5%float
  ∧ r.1 = 1%float.
Proof.
  intros. split; [compute_done|].
  subst o1 share cur1 cur2 d r. vm_compute. repeat split; reflexivity.
Qed.

(** ** C2: conservation *)

(** C2, as stated, fails: after [Initialise(3, ["a","b","c"])] and
    [Distribute("a", ["b"], t)] the current cash sums to 3 and the history to
    1, in exact arithmetic, so that current plus history is 4. *)
Lemma conserved_fails :
  ¬ conserved (Qc_of_int 3)
      (Distribute "a" ["b"] 0 (λ _, 0) (Initialise (Qc_of_int 3) ["a"; "b"; "c"] New)).2.
Proof.
  unfold conserved. intros Hc. apply (f_equal Qcanon.this) in Hc.
  vm_compute in Hc. discriminate.
Qed.

(** C2, amended. In exact arithmetic, on every ledger reached from the empty
    one by an [Initialise] of [C] over identifiers with pairwise distinct
    hashes, followed by calls of [Distribute] (source not the reserved key,
    not among its outputs, not finalised) and of [Finalise] (pairwise distinct
    identifiers, not finalised before): the current cash of all entries plus
    the history of the finalised identifiers sums to [C]. *)
Theorem run_conserves (C : Qc) (R : gset Z) (o : OPIC Qc) :
  run C R o → (total (current o) + retired R (history o))%Qc = C.
Proof.
  induction 1 as [ids Hne Hnd|R o source out t now _ IH Hs Hout HR|R o ins _ IH Hnd HR].
  - rewrite Initialise_total, retired_empty by done. ring.
  - rewrite Distribute_total, Distribute_history by done.
    rewrite credits_absent, retired_insert_other by done.
    change (Qc_of_int (Z.of_nat 0)) with 0%Qc. rewrite <- IH. ring.
  - rewrite <- IH. unfold Finalise.
    pose proof (retire_moves ins (current o) (history o) R Hnd HR) as Hm.
    by destruct (retire ins (current o) (history o)).
Qed.

Lemma run_conserves_witness :
  let o := Finalise ["c"]
             (Distribute "a" ["b"] 5 (λ _, 7)
                (Initialise (Qc_of_int 3) ["a"; "b"; "c"] New)).2 in
  (total (current o) + retired (list_to_set (fnvHash <$> ["c"]) ∪ ∅) (history o))%Qc
  = Qc_of_int 3.
Proof.
  apply run_conserves.
  apply run_Finalise; [apply run_Distribute; [apply run_Initialise|..]|..].
  - discriminate.
  - compute_done.
  - compute_done.
  - compute_done.
  - apply not_elem_of_empty.
  - compute_done.
  - intros s _. apply not_elem_of_empty.
Defined.

(** ** C3: [Distribute] and the sum of the current cash *)

(** C3. The code loses cash where the claim has it conserved: for a page that
    links to itself, [o.current[sourceH] = d] overwrites the share the loop
    has just credited to the source. [Distribute("a", ["a"], t)] after
    [Initialise(3, ["a","b","c"])] credits 1/2 to the reserve and 1/2 to "a",
    skims d = 1/10 off the reserve and then sets "a" to d: the current cash,
    which summed to 3, sums to 5/2. No rounding is involved, the arithmetic
    is exact. *)
Lemma Distribute_loses_cash :
  let o := Initialise (Qc_of_int 3) ["a"; "b"; "c"] New in
  total (current (Distribute "a" ["a"] 0 (λ _, 0) o).2) ≠ total (current o).
Proof.
  intros o Hc. apply (f_equal Qcanon.this) in Hc. vm_compute in Hc. discriminate.
Qed.

(** X28. Away from that slip [Distribute] debits what it credits: for every
    source whose hash is not the reserved key and not the hash of one of the
    outputs, every list of outputs (the empty one included, outputs may
    repeat) and every time, in exact arithmetic the current cash sums to the
    same before and after [Distribute]. *)
Theorem Distribute_conserves source out t now (o : OPIC Qc) :
  fnvHash source ≠ 0 →
  fnvHash source ∉ fnvHash <$> out →
  total (current (Distribute source out t now o).2) = total (current o).
Proof.
  intros Hs Hout. rewrite Distribute_total, credits_absent by done.
  change (Qc_of_int (Z.of_nat 0)) with 0%Qc. ring.
Qed.

Lemma Distribute_conserves_witness :
  let o := Initialise (Qc_of_int 3) ["a"; "b"; "c"] New in
  total (current (Distribute "a" ["b"; "c"] 5 (λ _, 7) o).2) = total (current o).
Proof.
  apply Distribute_conserves; compute_done.
Defined.

(** ** C4: [Initialise] with no identifiers *)

(** C4, as stated, fails: [Initialise] has no result, so it cannot reject; on
    an empty list it returns after setting the dirty flag, and the ledger is
    not the one it was given. *)
Lemma Initialise_empty_not_rejected :
  Initialise 3%float [] New ≠ New.
Proof. intros Hc. apply (f_equal dirty) in Hc. discriminate. Qed.

(** On binary64 a quotient by zero is infinite or not a number, whatever the
    dividend. *)
Lemma div_zero_not_finite (c : float) :
  is_finite (c / float64_of_int 0)%float = false.
Proof.
  change (float64_of_int 0) with 0%float.
  assert (Hr : Prim2SF (c / 0)%float = S754_nan
               ∨ ∃ s, Prim2SF (c / 0)%float = S754_infinity s).
  { rewrite div_spec. change (Prim2SF 0) with (S754_zero false).
    destruct (Prim2SF c) as [s|s| |s m e]; cbn; eauto. }
  unfold is_finite, is_nan, is_infinity.
  rewrite !FloatAxioms.eqb_spec, abs_spec.
  destruct Hr as [->|[s ->]]; [done|].
  change (Prim2SF infinity) with (S754_infinity false). by destruct s.
Qed.

(** C4, amended. For every cash amount, [Initialise] with an empty identifier
    list returns normally; it leaves the three maps as they are and sets the
    dirty flag. On binary64 the quotient [cash / 0] it computes is not finite,
    but it is stored nowhere: what [Get] and [Sums] answer is what they
    answered before. *)
Theorem Initialise_empty (c : float) (o : OPIC float) :
  let n := (c / float64 (Z.of_nat (length (fnvHash <$> []))))%fl in
  let o' := Initialise c [] o in
  is_finite n = false
  ∧ o' = {| dirty := true; current := current o; cleared := cleared o; history := history o |}
  ∧ (∀ s, Get s o' = Get s o)
  ∧ Sums o' = Sums o.
Proof.
  intros n o'. split; [apply div_zero_not_finite|].
  assert (Ho : o' = {| dirty := true; current := current o;
                       cleared := cleared o; history := history o |}) by done.
  split; [done|]. by rewrite Ho.
Qed.

(** ** C5: the estimate *)

(** C5, as stated, fails where the elapsed time does not fit a [Duration]:
    [Time.Sub] then answers the largest duration, about 292 years. An
    identifier that was initialised and never cleared has the zero Time as
    its cleared time; observed in the year 2025 with an interval of 24 hours,
    its estimate is computed from [d = 2^63 - 1], not from [t - clearedAt]:
    on binary64 it is about 9.4e-6 where the formula gives about 1.4e-6. *)
Lemma Estimate_saturates :
  let o : OPIC float := Initialise 3%float ["a"; "b"; "c"] New in
  let interval : Duration := 86400 * 10 ^ 9 in
  let t : Time := 63900000000 * 10 ^ 9 in
  let h := (Get "a" o).1.1 in
  let c := (Get "a" o).1.2 in
  let clearedAt := (Get "a" o).2 in
  Estimate "a" interval t o ≠ estimate_spec h c interval (t - clearedAt).
Proof.
  intros o interval t h c clearedAt Hc.
  apply (f_equal (λ x, PrimFloat.eqb x (Estimate "a" interval t o))) in Hc.
  vm_compute in Hc. discriminate.
Qed.

(** C5, amended. For every identifier with history [h], current cash [c] and
    cleared time [clearedAt], every interval and observation time [t]:
    [Estimate] is the formula of the specification at the elapsed time
    [d = t.Sub(clearedAt)], which is [t - clearedAt] cut to the range of a
    [Duration]: [h * (interval - d) / interval + c] when [d < interval], and
    [c * (interval / d)] otherwise. *)
Theorem Estimate_formula {F : Type} {arith : Float64 F}
    (s : string) (interval : Duration) (t : Time) (o : OPIC F) :
  let '(h, c, clearedAt) := Get s o in
  Estimate s interval t o = estimate_spec h c interval (Sub t clearedAt)
  ∧ Sub t clearedAt = Z.max minDuration (Z.min maxDuration (t - clearedAt)).
Proof.
  unfold Get, GetN, Estimate, EstimateN, estimate_spec. cbn. split; [done|].
  unfold Sub, minDuration, maxDuration.
  repeat case_match; lia.
Qed.

(** ** C6: [EnsureBalance] *)

(** C6, as stated, fails: [EnsureBalance] sets the dirty flag whether or not
    it tops up. On the empty ledger the sums are 0 and 0, the target 0 is met,
    and yet the ledger is not left as it was. *)
Lemma EnsureBalance_marks_dirty :
  let o : OPIC float := New in
  ((Sums o).1 + (Sums o).2 <? 0%float)%fl = false ∧ EnsureBalance 0%float o ≠ o.
Proof.
  split; [reflexivity|].
  intros Hc. apply (f_equal dirty) in Hc. discriminate.
Qed.

(** C6, amended. Let [r] be history sum plus current sum, as [Sums] gives
    them. If [r < n] does not hold, [EnsureBalance(n)] leaves the three maps
    as they are; otherwise it sets the current cash of the reserve to its
    former value plus [n - r] and leaves every other entry and the other maps
    as they are. In both cases it sets the dirty flag. *)
Theorem EnsureBalance_frame {F : Type} {arith : Float64 F} (n : F) (o : OPIC F) :
  let r := ((Sums o).1 + (Sums o).2)%fl in
  current (EnsureBalance n o)
  = (if (r <? n)%fl
     then <[0 := (cash (current o) 0 + (n - r))%fl]> (current o)
     else current o)
  ∧ (∀ k, k ≠ 0 → cash (current (EnsureBalance n o)) k = cash (current o) k)
  ∧ history (EnsureBalance n o) = history o
  ∧ cleared (EnsureBalance n o) = cleared o
  ∧ dirty (EnsureBalance n o) = true.
Proof.
  unfold EnsureBalance, Sums. cbn. repeat split.
  intros k Hk. case_match; [|done]. by apply cash_insert_ne.
Qed.

(** ** C7: loading a file that is not there *)

(** C7. When the backing file does not exist, [Load] with "ignore missing"
    leaves the ledger as it is and answers no error; without it, it answers
    the error of the failed open. When the file exists and [Load] answers no
    error, the dirty flag is cleared. *)
Theorem LoadWith_missing (options : PersistentLoadOptions) (p : Persistent) (fs : FS) :
  (files fs !! filename p = None →
   LoadWith options p fs = if IgnoreMissing options then (None, p) else (Some ENOENT, p))
  ∧ (∀ p', is_Some (files fs !! filename p) →
           LoadWith options p fs = (None, p') → Dirty (ledger p') = false).
Proof.
  split.
  - intros Hf. unfold LoadWith, Load, OpenFile. rewrite Hf. by destruct (IgnoreMissing options).
  - intros p' [content Hf]. unfold LoadWith, Load, OpenFile. rewrite Hf.
    destruct (ReadFrom content (ledger p)) as [[n [err|]] o']; [done|].
    by intros [= <-].
Qed.

Lemma LoadWith_missing_witness :
  let p := NewPersistent "opic.db" in
  let nothing := {| files := ∅; device := λ _, 0%nat |} in
  let saved := {| files := {[ "opic.db" := MarshalBinary (Initialise 3%float ["a"] New) ]};
                  device := λ _, 0%nat |} in
  LoadWith {| IgnoreMissing := true |} p nothing = (None, p)
  ∧ LoadWith {| IgnoreMissing := false |} p nothing = (Some ENOENT, p)
  ∧ Dirty (ledger (LoadWith {| IgnoreMissing := false |} p saved).2) = false.
Proof.
  intros p nothing saved. split; [|split].
  - apply (proj1 (LoadWith_missing {| IgnoreMissing := true |} p nothing)). reflexivity.
  - apply (proj1 (LoadWith_missing {| IgnoreMissing := false |} p nothing)). reflexivity.
  - apply (proj2 (LoadWith_missing {| IgnoreMissing := false |} p saved)).
    + eexists. reflexivity.
    + vm_compute. reflexivity.
Defined.

(** ** C8: the codec round trip *)

(** C8, as stated, fails: a cleared time is written as whole seconds, so what
    [Get] answers for it differs after the round trip. After
    [Distribute("a", [], t)] with [t] half a second past a full second, the
    decoded ledger has the full second. *)
Lemma codec_truncates_time :
  let t : Time := 63900000000 * 10 ^ 9 + 500000000 in
  let o : OPIC float := (Distribute "a" [] t (λ _, 0) (Initialise 3%float ["a"] New)).2 in
  let o' := (ReadFrom (MarshalBinary o) New).2 in
  Get "a" o' ≠ Get "a" o.
Proof.
  intros t o o' Hc. apply (f_equal snd) in Hc. vm_compute in Hc. discriminate.
Qed.

(** C8, amended. For every ledger (keys [uint64], lengths [int]) and every
    order in which the three maps are visited while encoding: decoding the
    bytes into an empty ledger succeeds; for every identifier [Get] answers
    the same history and current cash, bit for bit, and the cleared time cut
    to the whole second, [timeUnix (Unix t)]; what [Sums] can answer on the
    decoded ledger is what it can answer on the original, visiting order for
    visiting order (one answer it is not: see [Sums_order_after_round_trip]).
    When every cleared time is a whole second that [Unix] can count, [Get]
    answers the same altogether. *)
Theorem codec_round_trip (o : OPIC float) cs hs fs :
  well_typed o →
  cs ≡ₚ map_to_list (current o) →
  hs ≡ₚ map_to_list (history o) →
  fs ≡ₚ map_to_list (cleared o) →
  let r := ReadFrom (WriteToIn cs hs fs) New in
  r.1.2 = None
  ∧ (∀ s, Get s r.2 = let '(h, c, t) := Get s o in (h, c, timeUnix (Unix t)))
  ∧ (∀ x, Sums_answers r.2 x ↔ Sums_answers o x)
  ∧ (map_Forall (λ _ t, - 2 ^ 63 + unixToInternal ≤ t / 10 ^ 9 < 2 ^ 63
                        ∧ t mod 10 ^ 9 = 0) (cleared o) →
     ∀ s, Get s r.2 = Get s o).
Proof.
  intros Hwt Hcs Hhs Hfs r.
  destruct (decode_encode cs hs fs o Hwt Hcs Hhs Hfs) as [n Hr].
  subst r. rewrite Hr. cbn [fst snd].
  assert (Hinst : ∀ k, instant ((λ t, timeUnix (Unix t)) <$> cleared o) k
                       = timeUnix (Unix (instant (cleared o) k))).
  { intros k. unfold instant. rewrite lookup_fmap. by destruct (cleared o !! k). }
  split; [done|]. split; [|split; [done|]].
  - intros s. unfold Get, GetN. cbn [current history cleared]. by rewrite Hinst.
  - intros Hsec s. unfold Get, GetN. cbn [current history cleared]. f_equal.
    unfold instant. rewrite lookup_fmap.
    destruct (cleared o !! fnvHash s) as [t|] eqn:Ht; [|done]. cbn.
    destruct (Hsec _ _ Ht) as [Hrange Hmod].
    rewrite timeUnix_Unix by done.
    pose proof (Z.div_mod t (10 ^ 9)). lia.
Qed.

Lemma codec_round_trip_witness :
  let ledger (t : Time) : OPIC float :=
    (Distribute "a" ["b"] t (λ _, t) (Initialise 3%float ["a"; "b"; "c"] New)).2 in
  let encoding (o : OPIC float) :=
    WriteToIn (reverse (map_to_list (current o))) (map_to_list (history o))
              (reverse (map_to_list (cleared o))) in
  let o := ledger (63900000000 * 10 ^ 9 + 500000000) in
  let o2 := ledger (63900000000 * 10 ^ 9) in
  let r := ReadFrom (encoding o) New in
  let r2 := ReadFrom (encoding o2) New in
  (r.1.2 = None
   ∧ (∀ s, Get s r.2 = let '(h, c, t) := Get s o in (h, c, timeUnix (Unix t)))
   ∧ (∀ x, Sums_answers r.2 x ↔ Sums_answers o x))
  ∧ (r2.1.2 = None ∧ ∀ s, Get s r2.2 = Get s o2).
Proof.
  intros ledger encoding o o2 r r2.
  assert (Hwt : well_typed o ∧ well_typed o2).
  { split; unfold well_typed, uint64_keys;
      (split; [|split]); (split; [compute_done | compute_done]). }
  subst r r2 encoding. cbv beta. split.
  - pose proof (codec_round_trip o (reverse (map_to_list (current o)))
                  (map_to_list (history o)) (reverse (map_to_list (cleared o)))
                  (proj1 Hwt) (reverse_Permutation _) (reflexivity _)
                  (reverse_Permutation _)) as H.
    cbv zeta in H. destruct H as (Herr & Hget & Hsums & _).
    exact (conj Herr (conj Hget Hsums)).
  - pose proof (codec_round_trip o2 (reverse (map_to_list (current o2)))
                  (map_to_list (history o2)) (reverse (map_to_list (cleared o2)))
                  (proj2 Hwt) (reverse_Permutation _) (reflexivity _)
                  (reverse_Permutation _)) as H.
    cbv zeta in H. destruct H as (Herr & _ & _ & Hsec).
    split; [exact Herr|]. apply Hsec. compute_done.
Defined.

(** On [float64] what [Sums] answers depends on the order in which its loops
    meet the entries, after a round trip as before it. The ledger below is
    decoded with the current cash it had; met in the order of [map_to_list]
    the four values sum to 3, met one place further on they sum to
    3.0000000000000004. *)
Lemma Sums_order_after_round_trip :
  let o : OPIC float :=
    (Distribute "b" ["a"; "c"] 5 (λ _, 7)
       (Distribute "a" ["b"] 5 (λ _, 7) (Initialise 3%float ["a"; "b"; "c"] New)).2).2 in
  let o' := (ReadFrom (MarshalBinary o) New).2 in
  let cv := drop 1 (map_to_list (current o')) ++ take 1 (map_to_list (current o')) in
  current o' = current o
  ∧ Sums_answers o' (SumsIn (map_to_list (history o')) cv)
  ∧ SumsIn (map_to_list (history o')) cv ≠ Sums o.
Proof.
  intros o o' cv.
  assert (Ho' : o' = {| dirty := false; current := current o;
                        cleared := (λ t, timeUnix (Unix t)) <$> cleared o;
                        history := history o |}).
  { destruct (decode_encode (map_to_list (current o)) (map_to_list (history o))
                (map_to_list (cleared o)) o) as [n Hn]; [|done..|].
    - unfold well_typed, uint64_keys.
      split; [|split]; (split; [compute_done | compute_done]).
    - subst o'. unfold MarshalBinary, WriteTo. cbn [snd]. by rewrite Hn. }
  split; [by rewrite Ho'|]. split.
  - exists (map_to_list (history o')), cv. split; [done|]. split; [|done].
    subst cv. by rewrite (comm (++)), take_drop.
  - intros Hc. apply (f_equal (λ p, Prim2SF p.2)) in Hc.
    subst cv. rewrite Ho' in Hc. vm_compute in Hc. discriminate.
Qed.

(** ** C9: saving *)

(** X26. Up to the rename, the file under the name of the instance is what it
    was: every state before the rename has it untouched, and when [Save] fails no
    state has touched it. When [Save] succeeds the last state has the encoded
    ledger under that name, and the dirty flag is cleared. *)
Lemma Save_replaces_at_once (tmp : string) (p : Persistent) (fs : FS) :
  tmp ≠ filename p →
  let '(err, p', trace) := Save tmp p fs in
  Forall (λ fs', files fs' !! filename p = files fs !! filename p) (take 2 trace)
  ∧ match err with
    | Some _ =>
        p' = p
        ∧ Forall (λ fs', files fs' !! filename p = files fs !! filename p) trace
    | None =>
        Dirty (ledger p') = false
        ∧ ∃ fs3, trace !! 2%nat = Some fs3
                 ∧ files fs3 !! filename p = Some (WriteTo (ledger p)).2
                 ∧ files fs3 !! tmp = None
    end.
Proof.
  intros Hne. unfold Save, TempFile.
  destruct (files fs !! tmp) as [old|] eqn:Htmp; [by split; [constructor|]|].
  unfold Rename, WriteFile. cbn [files device].
  rewrite lookup_insert_eq.
  assert (Huntouched :
    Forall (λ fs', files fs' !! filename p = files fs !! filename p)
      [ {| files := <[tmp := []]> (files fs); device := device fs |};
        {| files := <[tmp := default [] (<[tmp := []]> (files fs) !! tmp)
                               ++ (WriteTo (ledger p)).2]> (<[tmp := []]> (files fs));
             device := device fs |} ]).
  { repeat constructor; cbn [files]; by rewrite !lookup_insert_ne. }
  destruct (decide (device fs tmp = device fs (filename p))) as [Hdev|Hdev].
  - split; [done|]. split; [done|].
    eexists. split; [reflexivity|]. cbn [files]. split.
    + by rewrite lookup_insert_eq, lookup_insert_eq.
    + by rewrite lookup_insert_ne, lookup_delete_eq.
  - by repeat split.
Qed.

(** C9. The code misses the claim where the default directory for temporary
    files lies on another device than the file of the instance, as with a
    [/tmp] of its own: [ioutil.TempFile("", "opic")] creates the temporary
    file there, the rename is refused, and [Save] answers the error. The file
    of the instance is untouched, the ledger stays dirty, and nothing was
    saved. *)
Theorem Save_cross_device :
  let p := {| ledger := Initialise 1%float ["a"] New; filename := "/srv/opic.db" |} in
  let fs := {| files := {[ "/srv/opic.db" := MarshalBinary New ]};
               device := λ path, if String.prefix "/tmp/" path then 1%nat else 0%nat |} in
  let '(err, p', trace) := Save "/tmp/opic346912" p fs in
  err = Some EXDEV
  ∧ Dirty (ledger p') = true
  ∧ Forall (λ fs', files fs' !! filename p = Some (MarshalBinary New)) trace.
Proof.
  cbv zeta. unfold Save, TempFile. cbn [files device filename ledger].
  rewrite lookup_singleton_ne by done.
  unfold Rename, WriteFile. cbn [files device filename ledger].
  rewrite lookup_insert_eq.
  destruct (decide _) as [Hdev|_]; [by vm_compute in Hdev|].
  split; [done|]. split; [done|].
  repeat constructor; cbn [files filename];
    rewrite !lookup_insert_ne by done; apply lookup_singleton_eq.
Qed.

(** ** C10: a source among its own outputs *)

(** C10. When the source is one of the outputs, the hashes of the outputs
    being pairwise distinct and none the reserved key: the source ends with
    the skim [d] as its current cash, the reserve after its share divided by
    the number of entries plus one, in which the share credited to the source
    has no part; and in exact arithmetic the current cash of all entries sums
    to [c / (len(outputs) + 1)] less than before, [c] being the current cash
    of the source before the call. *)
Theorem Distribute_self_output (source : string) (out : list string)
    (t : Time) (now : nat → Time) :
  source ∈ out →
  NoDup (fnvHash <$> out) →
  0 ∉ fnvHash <$> out →
  (∀ (F : Type) (arith : Float64 F) (o : OPIC F),
     let c := cash (current o) (fnvHash source) in
     let share := (c / float64 (Z.of_nat (length out) + 1))%fl in
     let entries := size (list_to_set (fnvHash <$> out) ∪ ({[0]} ∪ dom (current o)) : gset Z) in
     cash (current (Distribute source out t now o).2) (fnvHash source)
     = ((cash (current o) 0 + share) / float64 (Z.of_nat entries + 1))%fl)
  ∧ (∀ o : OPIC Qc,
       total (current (Distribute source out t now o).2)
       = (total (current o)
          - cash (current o) (fnvHash source) / Qc_of_int (Z.of_nat (length out) + 1))%Qc).
Proof.
  intros Hin Hnd H0.
  assert (HsH : fnvHash source ∈ fnvHash <$> out) by by apply list_elem_of_fmap_2.
  assert (Hs : fnvHash source ≠ 0) by (intros Heq; by rewrite Heq in HsH).
  split.
  - intros F arith o c share entries. unfold Distribute. fold c. fold share.
    set (cur1 := <[0 := _]> (current o)).
    pose proof (credit_cash_absent share now 0 out cur1 (cleared o) 0 H0) as Hc.
    pose proof (credit_dom share now 0 out cur1 (cleared o)) as Hd.
    destruct (credit share now 0 out cur1 (cleared o)) as [cur2 clr2].
    cbn [fst snd current] in *. rewrite cash_insert_eq, Hc.
    subst cur1. rewrite cash_insert_eq.
    rewrite <- (size_dom (D := gset Z) cur2), Hd, dom_insert_L. done.
  - intros o. rewrite Distribute_total, credits_once by done.
    change (Qc_of_int (Z.of_nat 1)) with 1%Qc. ring.
Qed.

Lemma Distribute_self_output_witness :
  (∀ (F : Type) (arith : Float64 F) (o : OPIC F),
     let c := cash (current o) (fnvHash "a") in
     let share := (c / float64 (Z.of_nat (length ["a"; "b"]) + 1))%fl in
     let entries :=
       size (list_to_set (fnvHash <$> ["a"; "b"]) ∪ ({[0]} ∪ dom (current o)) : gset Z) in
     cash (current (Distribute "a" ["a"; "b"] 5 (λ _, 7) o).2) (fnvHash "a")
     = ((cash (current o) 0 + share) / float64 (Z.of_nat entries + 1))%fl)
  ∧ (∀ o : OPIC Qc,
       total (current (Distribute "a" ["a"; "b"] 5 (λ _, 7) o).2)
       = (total (current o)
          - cash (current o) (fnvHash "a") / Qc_of_int (Z.of_nat (length ["a"; "b"]) + 1))%Qc).
Proof.
  apply Distribute_self_output; compute_done.
Defined.


(** * Further properties *)

(** ** What the operations write *)

Section Writes.
Context {F : Type} {arith : Float64 F}.
Implicit Types (m cur hist : gmap Z F) (clr : gmap Z Time) (k : Z) (v : F) (o : OPIC F).

Lemma assign_lookup (n : F) (hs : list Z) m k :
  foldl (λ cur u, <[u := n]> cur) m hs !! k
  = if decide (k ∈ hs) then Some n else m !! k.
Proof.
  revert m. induction hs as [|h hs IH]; intros m.
  - cbn [foldl]. destruct (decide (k ∈ [])) as [Hin|]; [by apply elem_of_nil in Hin|done].
  - cbn [foldl]. rewrite IH.
    destruct (decide (k ∈ hs)) as [Hin|Hout].
    + by rewrite decide_True by by right.
    + destruct (decide (k = h)) as [->|Hne].
      * by rewrite decide_True, lookup_insert_eq by left.
      * rewrite decide_False, lookup_insert_ne; [done..|].
        by intros [?|?]%elem_of_cons.
Qed.

Lemma credit_cleared_absent share now i out cur clr k :
  k ∉ fnvHash <$> out → (credit share now i out cur clr).2 !! k = clr !! k.
Proof.
  revert i cur clr. induction out as [|s out IH]; intros i cur clr Hk; [done|].
  rewrite fmap_cons, not_elem_of_cons in Hk. destruct Hk as [Hs Hk].
  cbn [credit]. rewrite IH by done.
  destruct (clr !! fnvHash s); [done|]. by rewrite lookup_insert_ne.
Qed.

(** A cleared time that is there stays. *)
Lemma credit_cleared_kept share now i out cur clr k t0 :
  clr !! k = Some t0 → (credit share now i out cur clr).2 !! k = Some t0.
Proof.
  revert i cur clr. induction out as [|s out IH]; intros i cur clr Hk; [done|].
  cbn [credit]. apply IH.
  destruct (clr !! fnvHash s) eqn:Hs; [done|].
  rewrite lookup_insert_ne; [done|]. intros Heq. congruence.
Qed.

Lemma credit_cleared_first share now i out cur clr j s :
  out !! j = Some s →
  clr !! fnvHash s = None →
  (∀ j' s', (j' < j)%nat → out !! j' = Some s' → fnvHash s' ≠ fnvHash s) →
  (credit share now i out cur clr).2 !! fnvHash s = Some (now (i + j)%nat).
Proof.
  revert i j cur clr. induction out as [|s0 out IH]; intros i j cur clr Hj Hs Hfirst; [done|].
  cbn [credit]. destruct j as [|j].
  - injection Hj as ->. rewrite Hs, Nat.add_0_r.
    apply credit_cleared_kept, lookup_insert_eq.
  - cbn in Hj. replace (i + S j)%nat with (S i + j)%nat by lia.
    assert (Hne : fnvHash s0 ≠ fnvHash s) by (apply (Hfirst 0%nat); [lia|done]).
    apply IH; [done| |].
    + destruct (clr !! fnvHash s0); [done|]. by rewrite lookup_insert_ne.
    + intros j' s' Hlt Hj'. apply (Hfirst (S j')); [lia|done].
Qed.

Lemma credit_cash_once share now i out cur clr k :
  NoDup (fnvHash <$> out) → k ∈ fnvHash <$> out →
  cash (credit share now i out cur clr).1 k = (cash cur k + share)%fl.
Proof.
  revert i cur clr. induction out as [|s out IH]; intros i cur clr Hnd Hk.
  - by apply elem_of_nil in Hk.
  - rewrite fmap_cons in Hnd, Hk. apply NoDup_cons in Hnd as [Hs Hnd]. cbn [credit].
    destruct (decide (k = fnvHash s)) as [->|Hne].
    + by rewrite credit_cash_absent, cash_insert_eq.
    + apply elem_of_cons in Hk as [?|Hk]; [done|].
      by rewrite IH, cash_insert_ne.
Qed.

(** ** [Initialise] is a reset *)

(** X1. After [Initialise(c, ins)] every listed identifier has the current
    cash [c / len(ins)], whatever it had before, with its history and cleared
    time as they were; every other entry is as it was; the ledger is dirty. *)
Theorem Initialise_resets (c : F) (ins : list string) o :
  let n := (c / float64 (Z.of_nat (length ins)))%fl in
  let o' := Initialise c ins o in
  (∀ s, s ∈ ins →
        Get s o' = (cash (history o) (fnvHash s), n, instant (cleared o) (fnvHash s)))
  ∧ (∀ k, k ∉ fnvHash <$> ins → GetN k o' = GetN k o)
  ∧ Dirty o' = true.
Proof.
  intros n o'. split; [|split; [|done]].
  - intros s Hs. unfold Get, GetN, o', Initialise, InitialiseN. cbn [current history cleared].
    unfold cash at 2. rewrite assign_lookup, decide_True by by apply list_elem_of_fmap_2.
    by rewrite length_fmap.
  - intros k Hk. unfold GetN, o', Initialise, InitialiseN. cbn [current history cleared].
    unfold cash at 2. by rewrite assign_lookup, decide_False.
Qed.

(** ** The bookkeeping of [Distribute] *)

(** X2. [Distribute] returns the current cash the source had and records it
    as the history of the source; the cleared time of the source is the time
    given; the ledger is dirty. No other history changes, and an entry that
    is neither the reserve, the source nor an output is as it was. *)
Theorem Distribute_bookkeeping (source : string) (out : list string) (t : Time)
    (now : nat → Time) o :
  let r := Distribute source out t now o in
  r.1 = cash (current o) (fnvHash source)
  ∧ cash (history r.2) (fnvHash source) = r.1
  ∧ instant (cleared r.2) (fnvHash source) = t
  ∧ Dirty r.2 = true
  ∧ (∀ k, k ≠ fnvHash source → cash (history r.2) k = cash (history o) k)
  ∧ (∀ k, k ≠ 0 → k ≠ fnvHash source → k ∉ fnvHash <$> out → GetN k r.2 = GetN k o).
Proof.
  intros r. subst r. unfold Distribute.
  set (c := cash (current o) (fnvHash source)).
  set (share := (c / float64 (Z.of_nat (length out) + 1))%fl).
  set (cur1 := <[0 := _]> (current o)).
  pose proof (credit_cash_absent share now 0 out cur1 (cleared o)) as Hcur.
  pose proof (credit_cleared_absent share now 0 out cur1 (cleared o)) as Hclr.
  destruct (credit share now 0 out cur1 (cleared o)) as [cur2 clr2].
  cbn [fst snd current history cleared Dirty dirty] in *.
  split; [done|]. split; [apply cash_insert_eq|].
  split; [unfold instant; by rewrite lookup_insert_eq|]. split; [done|]. split.
  - intros k Hk. by apply cash_insert_ne.
  - intros k Hk0 Hks Hout. unfold GetN. cbn [current history cleared].
    rewrite !cash_insert_ne by done. rewrite Hcur by done.
    unfold cur1. rewrite cash_insert_ne by done.
    unfold instant. by rewrite lookup_insert_ne, Hclr.
Qed.

(** X3. With outputs of pairwise distinct hashes, an output that is neither
    the reserve nor the source ends with its former current cash plus one
    share, [c / (len(out) + 1)]. *)
Theorem Distribute_credits_output (source : string) (out : list string) (t : Time)
    (now : nat → Time) o (s : string) :
  NoDup (fnvHash <$> out) →
  s ∈ out →
  fnvHash s ≠ 0 →
  fnvHash s ≠ fnvHash source →
  cash (current (Distribute source out t now o).2) (fnvHash s)
  = (cash (current o) (fnvHash s)
     + cash (current o) (fnvHash source) / float64 (Z.of_nat (length out) + 1))%fl.
Proof.
  intros Hnd Hs H0 Hne. unfold Distribute.
  set (c := cash (current o) (fnvHash source)).
  set (share := (c / float64 (Z.of_nat (length out) + 1))%fl).
  set (cur1 := <[0 := _]> (current o)).
  pose proof (credit_cash_once share now 0 out cur1 (cleared o) (fnvHash s) Hnd
                ltac:(by apply list_elem_of_fmap_2)) as Hcur.
  destruct (credit share now 0 out cur1 (cleared o)) as [cur2 clr2].
  cbn [fst snd current] in *.
  rewrite !cash_insert_ne by done. rewrite Hcur. unfold cur1.
  by rewrite cash_insert_ne.
Qed.

(** X4. The cleared time of an output is its first-seen time: an entry that
    has a cleared time keeps it, unless it is the source; an output that has
    none gets what [time.Now()] answers when the loop first comes to it. *)
Theorem Distribute_first_seen (source : string) (out : list string) (t : Time)
    (now : nat → Time) o :
  let o' := (Distribute source out t now o).2 in
  (∀ k t0, k ≠ fnvHash source → cleared o !! k = Some t0 → cleared o' !! k = Some t0)
  ∧ (∀ i s, out !! i = Some s →
            fnvHash s ≠ fnvHash source →
            cleared o !! fnvHash s = None →
            (∀ j s', (j < i)%nat → out !! j = Some s' → fnvHash s' ≠ fnvHash s) →
            cleared o' !! fnvHash s = Some (now i)).
Proof.
  intros o'. subst o'. unfold Distribute.
  set (share := (_ / _)%fl). set (cur1 := <[0 := _]> (current o)).
  pose proof (credit_cleared_kept share now 0 out cur1 (cleared o)) as Hkept.
  pose proof (credit_cleared_first share now 0 out cur1 (cleared o)) as Hfirst.
  destruct (credit share now 0 out cur1 (cleared o)) as [cur2 clr2].
  cbn [fst snd cleared] in *. split.
  - intros k t0 Hk Ht0. rewrite lookup_insert_ne by done. by apply Hkept.
  - intros i s Hi Hs Hnone Hbefore. rewrite lookup_insert_ne by done.
    by apply Hfirst.
Qed.
End Writes.

Lemma Distribute_credits_output_witness :
  let o : OPIC float := Initialise 3%float ["a"; "b"; "c"] New in
  cash (current (Distribute "a" ["b"; "c"] 5 (λ _, 7) o).2) (fnvHash "b")
  = (cash (current o) (fnvHash "b")
     + cash (current o) (fnvHash "a") / float64 (Z.of_nat (length ["b"; "c"]) + 1))%fl.
Proof.
  intros o. apply (Distribute_credits_output "a" ["b"; "c"] 5 (λ _, 7) o "b"); compute_done.
Defined.

(** ** [Finalise] *)

Section Retiring.
Context {F : Type} {arith : Float64 F}.
Implicit Types (cur hist : gmap Z F) (k : Z) (o : OPIC F).

Lemma retire_absent ins cur hist k :
  k ∉ fnvHash <$> ins →
  cash (retire ins cur hist).1 k = cash cur k
  ∧ cash (retire ins cur hist).2 k = cash hist k.
Proof.
  revert cur hist. induction ins as [|s ins IH]; intros cur hist Hk; [done|].
  rewrite fmap_cons, not_elem_of_cons in Hk. destruct Hk as [Hs Hk].
  cbn [retire]. destruct (IH (<[fnvHash s := fzero]> cur)
                             (<[fnvHash s := cash cur (fnvHash s)]> hist) Hk) as [-> ->].
  by rewrite !cash_insert_ne.
Qed.

(** Whatever is listed ends with no current cash. *)
Lemma retire_current ins cur hist k :
  k ∈ fnvHash <$> ins → cash (retire ins cur hist).1 k = fzero.
Proof.
  revert cur hist. induction ins as [|s ins IH]; intros cur hist Hk.
  - by apply elem_of_nil in Hk.
  - cbn [retire]. destruct (decide (k ∈ fnvHash <$> ins)) as [Hin|Hout]; [by apply IH|].
    rewrite fmap_cons in Hk. apply elem_of_cons in Hk as [->|?]; [|done].
    rewrite (proj1 (retire_absent _ _ _ _ Hout)). apply cash_insert_eq.
Qed.

Lemma retire_history ins cur hist k :
  NoDup (fnvHash <$> ins) → k ∈ fnvHash <$> ins →
  cash (retire ins cur hist).2 k = cash cur k.
Proof.
  revert cur hist. induction ins as [|s ins IH]; intros cur hist Hnd Hk.
  - by apply elem_of_nil in Hk.
  - rewrite fmap_cons in Hnd, Hk. apply NoDup_cons in Hnd as [Hs Hnd]. cbn [retire].
    destruct (decide (k = fnvHash s)) as [->|Hne].
    + rewrite (proj2 (retire_absent _ _ _ _ Hs)). apply cash_insert_eq.
    + apply elem_of_cons in Hk as [?|Hk]; [done|].
      rewrite IH by done. by apply cash_insert_ne.
Qed.

(** What has no current cash is given no history. *)
Lemma retire_history_zero ins cur hist k :
  k ∈ fnvHash <$> ins → cash cur k = fzero → cash (retire ins cur hist).2 k = fzero.
Proof.
  revert cur hist. induction ins as [|s ins IH]; intros cur hist Hk Hz.
  - by apply elem_of_nil in Hk.
  - cbn [retire]. destruct (decide (k ∈ fnvHash <$> ins)) as [Hin|Hout].
    + apply IH; [done|]. destruct (decide (fnvHash s = k)) as [->|Hne].
      * apply cash_insert_eq.
      * by rewrite cash_insert_ne.
    + rewrite fmap_cons in Hk. apply elem_of_cons in Hk as [->|?]; [|done].
      rewrite (proj2 (retire_absent _ _ _ _ Hout)). by rewrite cash_insert_eq.
Qed.

Lemma retire_app ins ins' cur hist :
  retire (ins ++ ins') cur hist
  = retire ins' (retire ins cur hist).1 (retire ins cur hist).2.
Proof.
  revert cur hist. induction ins as [|s ins IH]; intros cur hist; [done|].
  cbn [retire app]. apply IH.
Qed.

(** X5. [Finalise] on identifiers of pairwise distinct hashes: each of them
    ends with its former current cash as history and no current cash; its
    cleared time, and every entry that is not listed, are as they were. *)
Theorem Finalise_moves (ins : list string) o :
  NoDup (fnvHash <$> ins) →
  (∀ s, s ∈ ins →
        Get s (Finalise ins o)
        = (cash (current o) (fnvHash s), fzero, instant (cleared o) (fnvHash s)))
  ∧ (∀ k, k ∉ fnvHash <$> ins → GetN k (Finalise ins o) = GetN k o).
Proof.
  intros Hnd. unfold Get, GetN, Finalise. split.
  - intros s Hs. apply (list_elem_of_fmap_2 fnvHash) in Hs.
    pose proof (retire_current ins (current o) (history o) _ Hs) as Hc.
    pose proof (retire_history ins (current o) (history o) _ Hnd Hs) as Hh.
    destruct (retire ins (current o) (history o)) as [cur hist].
    cbn [fst snd current history cleared] in *. by rewrite Hc, Hh.
  - intros k Hk.
    destruct (retire_absent ins (current o) (history o) k Hk) as [Hc Hh].
    destruct (retire ins (current o) (history o)) as [cur hist].
    cbn [fst snd current history cleared] in *. by rewrite Hc, Hh.
Qed.

(** X6. [Finalise] over two lists, one after the other, is [Finalise] over
    the two lists joined; and a second [Finalise] of the same identifiers
    wipes what the first one recorded: they end with no history and no
    current cash. The same holds for an identifier listed twice. *)
Theorem Finalise_again (ins ins' : list string) o :
  Finalise ins' (Finalise ins o) = Finalise (ins ++ ins') o
  ∧ (∀ s, s ∈ ins → s ∈ ins' →
          Get s (Finalise ins' (Finalise ins o))
          = (fzero, fzero, instant (cleared o) (fnvHash s))).
Proof.
  assert (Happ : Finalise ins' (Finalise ins o) = Finalise (ins ++ ins') o).
  { unfold Finalise. rewrite retire_app.
    destruct (retire ins (current o) (history o)) as [cur hist].
    cbn [fst snd current history cleared].
    by destruct (retire ins' cur hist). }
  split; [done|]. intros s Hs Hs'.
  apply (list_elem_of_fmap_2 fnvHash) in Hs, Hs'.
  unfold Get, GetN, Finalise.
  pose proof (retire_current ins (current o) (history o) _ Hs) as Hc.
  destruct (retire ins (current o) (history o)) as [cur hist].
  cbn [fst snd current history cleared] in *.
  pose proof (retire_current ins' cur hist _ Hs') as Hc'.
  pose proof (retire_history_zero ins' cur hist _ Hs' Hc) as Hh'.
  destruct (retire ins' cur hist) as [cur' hist'].
  cbn [fst snd current history cleared] in *. by rewrite Hc', Hh'.
Qed.
End Retiring.

Lemma Finalise_moves_witness :
  let o : OPIC float := Initialise 3%float ["a"; "b"; "c"] New in
  (∀ s, s ∈ ["a"; "b"] →
        Get s (Finalise ["a"; "b"] o)
        = (cash (current o) (fnvHash s), fzero, instant (cleared o) (fnvHash s)))
  ∧ (∀ k, k ∉ fnvHash <$> ["a"; "b"] → GetN k (Finalise ["a"; "b"] o) = GetN k o).
Proof.
  intros o. apply (Finalise_moves ["a"; "b"] o). compute_done.
Defined.

(** ** The batch estimates *)

Section Batches.
Context {F : Type} {arith : Float64 F}.

Lemma estimates_spec {A} (est : A → F) (i : nat) (v : list A) (r : list F) :
  length r = (i + length v)%nat →
  estimates est i v r = take i r ++ (est <$> v).
Proof.
  revert i r. induction v as [|n v IH]; intros i r Hlen.
  - cbn in *. rewrite take_ge by lia. by rewrite app_nil_r.
  - cbn [estimates fmap list_fmap]. cbn [length] in Hlen.
    rewrite IH by (rewrite length_insert; lia).
    rewrite (take_S_r _ _ (est n)) by (apply list_lookup_insert_eq; lia).
    rewrite take_insert_ge by lia. by rewrite <- app_assoc.
Qed.

(** X7. [EstimateNV] and [EstimateV] answer, position by position, the
    estimates of the entries they are given, as many as there are entries;
    and [EstimateV] of identifiers is [EstimateNV] of their hashes. *)
Theorem EstimateV_pointwise (interval : Duration) (t : Time) (o : OPIC F) :
  (∀ v : list Z, EstimateNV v interval t o = (λ n, EstimateN n interval t o) <$> v)
  ∧ (∀ v : list string, EstimateV v interval t o = (λ s, Estimate s interval t o) <$> v)
  ∧ (∀ v : list string, EstimateV v interval t o = EstimateNV (fnvHash <$> v) interval t o).
Proof.
  assert (Hn : ∀ v : list Z,
            EstimateNV v interval t o = (λ n, EstimateN n interval t o) <$> v).
  { intros v. unfold EstimateNV. rewrite estimates_spec by by rewrite length_replicate.
    done. }
  assert (Hs : ∀ v : list string,
            EstimateV v interval t o = (λ s, Estimate s interval t o) <$> v).
  { intros v. unfold EstimateV. rewrite estimates_spec by by rewrite length_replicate.
    done. }
  split; [done|]. split; [done|].
  intros v. rewrite Hn, Hs, <- list_fmap_compose. done.
Qed.
End Batches.

(** ** Keys *)

Section Keys.
Context {F : Type} {arith : Float64 F}.
Implicit Types (cur hist : gmap Z F) (clr : gmap Z Time) (k : Z) (o : OPIC F).

Lemma lxor_uint64 (a b : Z) : 0 ≤ a < 2 ^ 64 → 0 ≤ b < 2 ^ 64 → 0 ≤ Z.lxor a b < 2 ^ 64.
Proof.
  intros Ha Hb. split; [apply Z.lxor_nonneg; lia|].
  destruct (decide (Z.lxor a b = 0)) as [->|Hne]; [lia|].
  assert (Hpos : 0 < Z.lxor a b) by (pose proof (proj2 (Z.lxor_nonneg a b)); lia).
  apply Z.log2_lt_pow2; [done|].
  pose proof (Z.log2_lxor a b ltac:(lia) ltac:(lia)) as Hl.
  assert (Hla : Z.log2 a < 64).
  { destruct (decide (a = 0)) as [->|]; [done|]. apply Z.log2_lt_pow2; lia. }
  assert (Hlb : Z.log2 b < 64).
  { destruct (decide (b = 0)) as [->|]; [done|]. apply Z.log2_lt_pow2; lia. }
  lia.
Qed.

Lemma fnvWrite_uint64 (s : string) (hash : Z) :
  0 ≤ hash < 2 ^ 64 → 0 ≤ fnvWrite hash s < 2 ^ 64.
Proof.
  revert hash. induction s as [|c s IH]; intros hash Hh; [done|].
  cbn [fnvWrite]. apply IH, lxor_uint64.
  - unfold wrap64. apply Z.mod_pos_bound. lia.
  - pose proof (Ascii.N_ascii_bounded c). lia.
Qed.

Lemma fnvHash_uint64 (s : string) : 0 ≤ fnvHash s < 2 ^ 64.
Proof. apply fnvWrite_uint64. unfold offset64. lia. Qed.

Lemma assign_keys (n : F) (hs : list Z) cur :
  Forall (λ k, 0 ≤ k < 2 ^ 64) hs →
  map_Forall (λ k _, 0 ≤ k < 2 ^ 64) cur →
  map_Forall (λ k _, 0 ≤ k < 2 ^ 64) (foldl (λ cur u, <[u := n]> cur) cur hs).
Proof.
  intros Hhs. revert cur. induction Hhs as [|h hs Hh _ IH]; intros cur Hcur; [done|].
  cbn [foldl]. apply IH. by apply map_Forall_insert_2.
Qed.

Lemma credit_keys share now i out cur clr :
  map_Forall (λ k _, 0 ≤ k < 2 ^ 64) cur →
  map_Forall (λ k _, 0 ≤ k < 2 ^ 64) clr →
  map_Forall (λ k _, 0 ≤ k < 2 ^ 64) (credit share now i out cur clr).1
  ∧ map_Forall (λ k _, 0 ≤ k < 2 ^ 64) (credit share now i out cur clr).2.
Proof.
  revert i cur clr. induction out as [|s out IH]; intros i cur clr Hcur Hclr; [done|].
  cbn [credit]. apply IH.
  - apply map_Forall_insert_2; [apply fnvHash_uint64|done].
  - destruct (clr !! fnvHash s); [done|].
    apply map_Forall_insert_2; [apply fnvHash_uint64|done].
Qed.

Lemma retire_keys ins cur hist :
  map_Forall (λ k _, 0 ≤ k < 2 ^ 64) cur →
  map_Forall (λ k _, 0 ≤ k < 2 ^ 64) hist →
  map_Forall (λ k _, 0 ≤ k < 2 ^ 64) (retire ins cur hist).1
  ∧ map_Forall (λ k _, 0 ≤ k < 2 ^ 64) (retire ins cur hist).2.
Proof.
  revert cur hist. induction ins as [|s ins IH]; intros cur hist Hcur Hhist; [done|].
  cbn [retire]. apply IH; (apply map_Forall_insert_2; [apply fnvHash_uint64|done]).
Qed.

(** X8. A hash is a [uint64], and the ledger keeps to [uint64] keys: the
    empty ledger has them, and [Initialise], [Distribute], [Finalise] and
    [EnsureBalance] give a ledger that has them when the ledger they are
    given has them. *)
Theorem keys_stay_uint64 o :
  (∀ s, 0 ≤ fnvHash s < 2 ^ 64)
  ∧ keys_uint64 (New : OPIC F)
  ∧ (keys_uint64 o →
     (∀ c ins, keys_uint64 (Initialise c ins o))
     ∧ (∀ source out t now, keys_uint64 (Distribute source out t now o).2)
     ∧ (∀ ins, keys_uint64 (Finalise ins o))
     ∧ (∀ n, keys_uint64 (EnsureBalance n o))).
Proof.
  split; [apply fnvHash_uint64|]. split; [by repeat split|].
  intros (Hcur & Hhist & Hclr). split; [|split; [|split]].
  - intros c ins. split; [|done]. cbn [Initialise InitialiseN current].
    apply assign_keys; [|done].
    apply Forall_fmap, Forall_true. intros s. apply fnvHash_uint64.
  - intros source out t now. unfold Distribute.
    set (share := (_ / _)%fl). set (cur1 := <[0 := _]> (current o)).
    destruct (credit_keys share now 0 out cur1 (cleared o)) as [Hcur2 Hclr2];
      [apply map_Forall_insert_2; [lia|done]|done|].
    destruct (credit share now 0 out cur1 (cleared o)) as [cur2 clr2].
    cbn [fst snd] in *. unfold keys_uint64. cbn [current history cleared].
    pose proof (fnvHash_uint64 source).
    split; [|split].
    + apply map_Forall_insert_2; [done|]. apply map_Forall_insert_2; [lia|done].
    + by apply map_Forall_insert_2.
    + by apply map_Forall_insert_2.
  - intros ins. unfold Finalise.
    destruct (retire_keys ins (current o) (history o) Hcur Hhist) as [Hc Hh].
    by destruct (retire ins (current o) (history o)).
  - intros n. unfold EnsureBalance, Sums. split; [|done]. cbn [current].
    destruct (_ <? _)%fl; [|done]. by apply map_Forall_insert_2.
Qed.
End Keys.

(** ** Exact arithmetic: order, top-up, decay *)

Section ExactOrder.
Implicit Types (m cur hist : gmap Z Qc) (k : Z) (x y a b : Qc) (o : OPIC Qc).
Local Open Scope Qc_scope.

Lemma Qc_of_int_Z (z : Z) : Qc_of_int z = Qc_of_Z z.
Proof. apply Qc_is_canon. unfold Qc_of_int. simpl. apply Qred_correct. Qed.

Lemma Qc_of_int_le (n m : Z) : (n ≤ m)%Z → Qc_of_int n ≤ Qc_of_int m.
Proof. rewrite !Qc_of_int_Z. apply Z2Qc_inj_le. Qed.

Lemma Qc_of_int_pos (n : Z) : (0 < n)%Z → 0 < Qc_of_int n.
Proof. rewrite Qc_of_int_Z, <- Z2Qc_inj_0. apply Z2Qc_inj_lt. Qed.

Lemma Qcdiv_nonneg a b : 0 ≤ a → 0 < b → 0 ≤ a / b.
Proof.
  intros Ha Hb. apply Qcmult_nonneg_nonneg; [done|].
  by apply Qclt_le_weak, Qcinv_pos.
Qed.

Lemma Qcdiv_le_self a b : 0 ≤ a → 1 ≤ b → a / b ≤ a.
Proof.
  intros Ha Hb.
  assert (Hpos : 0 < b) by (eapply Qclt_le_trans; [|exact Hb]; done).
  apply Qcle_minus_iff.
  replace (a + - (a / b)) with (a * (b + - 1) / b)
    by (field; by apply not_symmetry, Qclt_not_eq).
  apply Qcdiv_nonneg; [|done]. apply Qcmult_nonneg_nonneg; [done|].
  by apply (proj1 (Qcle_minus_iff _ _)).
Qed.

Lemma cash_nonneg m k : map_Forall (λ _ v, 0 ≤ v) m → 0 ≤ cash m k.
Proof.
  intros Hm. unfold cash. destruct (m !! k) as [v|] eqn:Hk; [|done].
  by apply (Hm k v).
Qed.

(** X9. In exact arithmetic [Sums] does not depend on the order in which the
    two loops visit the maps. On binary64 such a sum does depend on the order:
    1e16, 1 and -1e16 add up to 0 in that order and to 1 with the last two
    exchanged. *)
Theorem Sums_any_order :
  (∀ o (hs cs : list (Z * Qc)),
     hs ≡ₚ map_to_list (history o) →
     cs ≡ₚ map_to_list (current o) →
     (rangeSum hs.*2, rangeSum cs.*2) = Sums o)
  ∧ (∃ l1 l2 : list float, l1 ≡ₚ l2 ∧ rangeSum l1 ≠ rangeSum l2).
Proof.
  split.
  - intros o hs cs Hhs Hcs. unfold Sums, total.
    f_equal; apply rangeSum_perm; by apply fmap_Permutation.
  - exists [1e16; 1; -1e16]%float, [1e16; -1e16; 1]%float. split.
    + apply perm_skip, perm_swap.
    + intros Hc. apply (f_equal (λ u : float, PrimFloat.eqb u 0%float)) in Hc.
      vm_compute in Hc. discriminate.
Qed.

(** X10. In exact arithmetic, after [EnsureBalance(n)] the two sums add up to
    [n] when they added up to less, and to what they added up to otherwise;
    so they never add up to less than [n], and a second [EnsureBalance(n)]
    changes no map. *)
Theorem EnsureBalance_tops_up (n : Qc) o :
  let r := (Sums o).1 + (Sums o).2 in
  let o' := EnsureBalance n o in
  let r' := (Sums o').1 + (Sums o').2 in
  r' = (if bool_decide (r < n) then n else r)
  ∧ n ≤ r'
  ∧ current (EnsureBalance n o') = current o'
  ∧ history (EnsureBalance n o') = history o'.
Proof.
  intros r o' r'.
  assert (Hr' : r' = if bool_decide (r < n) then n else r).
  { subst r' o' r. unfold EnsureBalance, Sums. cbn [fst snd current history fltb exact].
    destruct (bool_decide _); [|done].
    rewrite total_insert. cbn [fadd fsub exact]. ring. }
  assert (Hle : n ≤ r').
  { rewrite Hr'. case_bool_decide as Hlt; [apply Qcle_refl|by apply Qcnot_lt_le]. }
  split; [done|]. split; [done|]. split; [|done].
  unfold EnsureBalance at 1. fold r'. cbn [Sums fst snd] in *.
  change (total (history o') + total (current o')) with r'.
  cbn [fltb exact current]. rewrite bool_decide_eq_false_2; [done|].
  by apply Qcle_not_lt.
Qed.

(** X11. In exact arithmetic and for a positive interval, the estimate decays
    with the time [d] elapsed since the entry was cleared: it is history plus
    current cash at [d = 0], lies between the current cash and that sum while
    [d < interval] (for a history that is not negative), is the current cash
    at [d = interval], and lies between 0 and the current cash from then on
    (for a current cash that is not negative). *)
Theorem Estimate_decays (s : string) (interval : Duration) (t : Time) o :
  let h := (Get s o).1.1 in
  let c := (Get s o).1.2 in
  let d := Sub t (Get s o).2 in
  (0 < interval)%Z →
  (d = 0%Z → Estimate s interval t o = h + c)
  ∧ (d = interval → Estimate s interval t o = c)
  ∧ ((0 ≤ d < interval)%Z → 0 ≤ h → c ≤ Estimate s interval t o ≤ h + c)
  ∧ ((interval ≤ d)%Z → 0 ≤ c → 0 ≤ Estimate s interval t o ≤ c).
Proof.
  intros h c d Hint.
  assert (HI : 0 < Qc_of_int interval) by by apply Qc_of_int_pos.
  assert (HI0 : Qc_of_int interval ≠ 0) by by apply not_symmetry, Qclt_not_eq.
  unfold Estimate, EstimateN. fold (Get s o).
  destruct (Get s o) as [[h' c'] vt] eqn:Hget. cbn [fst snd] in h, c, d.
  subst h c. fold d. cbn [fadd fsub fmul fdiv float64 exact].
  split; [|split; [|split]].
  - intros Hd. rewrite Hd. rewrite (proj2 (Z.ltb_lt 0 interval)) by done.
    change (Qc_of_int 0) with 0. by field.
  - intros Hd. rewrite Hd, Z.ltb_irrefl. by field.
  - intros [Hd0 Hd] Hh. rewrite (proj2 (Z.ltb_lt d interval)) by done.
    assert (HD : 0 ≤ Qc_of_int d) by (by apply (Qc_of_int_le 0)).
    assert (HDI : 0 ≤ Qc_of_int interval + - Qc_of_int d)
      by (apply (proj1 (Qcle_minus_iff _ _)), Qc_of_int_le; lia).
    split; apply Qcle_minus_iff.
    + replace (h' * (Qc_of_int interval - Qc_of_int d) / Qc_of_int interval + c' + - c')
        with (h' * (Qc_of_int interval + - Qc_of_int d) / Qc_of_int interval) by by field.
      apply Qcdiv_nonneg; [|done]. by apply Qcmult_nonneg_nonneg.
    + replace (h' + c' + - (h' * (Qc_of_int interval - Qc_of_int d) / Qc_of_int interval + c'))
        with (h' * Qc_of_int d / Qc_of_int interval) by by field.
      apply Qcdiv_nonneg; [|done]. by apply Qcmult_nonneg_nonneg.
  - intros Hd Hc. rewrite (proj2 (Z.ltb_ge d interval)) by done.
    assert (HD : 0 < Qc_of_int d) by (apply Qc_of_int_pos; lia).
    assert (HD0 : Qc_of_int d ≠ 0) by by apply not_symmetry, Qclt_not_eq.
    assert (HDI : 0 ≤ Qc_of_int d + - Qc_of_int interval)
      by (apply (proj1 (Qcle_minus_iff _ _)), Qc_of_int_le; lia).
    split.
    + apply Qcmult_nonneg_nonneg; [done|]. apply Qcdiv_nonneg; [|done].
      by apply Qclt_le_weak.
    + apply Qcle_minus_iff.
      replace (c' + - (c' * (Qc_of_int interval / Qc_of_int d)))
        with (c' * (Qc_of_int d + - Qc_of_int interval) / Qc_of_int d) by by field.
      apply Qcdiv_nonneg; [|done]. by apply Qcmult_nonneg_nonneg.
Qed.

Lemma assign_nonneg (n : Qc) (hs : list Z) cur :
  0 ≤ n → map_Forall (λ _ v, 0 ≤ v) cur →
  map_Forall (λ _ v, 0 ≤ v) (foldl (λ cur u, <[u := n]> cur) cur hs).
Proof.
  intros Hn. revert cur. induction hs as [|h hs IH]; intros cur Hcur; [done|].
  cbn [foldl]. apply IH. by apply map_Forall_insert_2.
Qed.

Lemma credit_nonneg share now i out cur clr :
  0 ≤ share → map_Forall (λ _ v, 0 ≤ v) cur →
  map_Forall (λ _ v, 0 ≤ v) (credit share now i out cur clr).1.
Proof.
  intros Hs. revert i cur clr. induction out as [|s out IH]; intros i cur clr Hcur; [done|].
  cbn [credit]. apply IH. apply map_Forall_insert_2; [|done].
  apply Qcplus_nonneg_nonneg; [by apply cash_nonneg|done].
Qed.

Lemma retire_nonneg ins cur hist :
  map_Forall (λ _ v, 0 ≤ v) cur → map_Forall (λ _ v, 0 ≤ v) hist →
  map_Forall (λ _ v, 0 ≤ v) (retire ins cur hist).1
  ∧ map_Forall (λ _ v, 0 ≤ v) (retire ins cur hist).2.
Proof.
  revert cur hist. induction ins as [|s ins IH]; intros cur hist Hcur Hhist; [done|].
  cbn [retire]. apply IH; (apply map_Forall_insert_2; [|done]).
  - apply Qcle_refl.
  - by apply cash_nonneg.
Qed.

(** X12. In exact arithmetic no operation makes cash negative: on a ledger
    whose current cash and history are nowhere negative, [Initialise] of an
    amount that is not negative, [Distribute], [Finalise] and [EnsureBalance]
    give such a ledger again, and what [Distribute] returns is not negative. *)
Theorem cash_never_negative o :
  nonnegative o →
  (∀ C ins, 0 ≤ C → nonnegative (Initialise C ins o))
  ∧ (∀ source out t now,
       nonnegative (Distribute source out t now o).2
       ∧ 0 ≤ (Distribute source out t now o).1)
  ∧ (∀ ins, nonnegative (Finalise ins o))
  ∧ (∀ n, nonnegative (EnsureBalance n o)).
Proof.
  intros [Hcur Hhist]. split; [|split; [|split]].
  - intros C ins HC. split; [|done]. destruct ins as [|s ins]; [done|].
    unfold Initialise, InitialiseN. cbn [current].
    apply assign_nonneg; [|done]. apply Qcdiv_nonneg; [done|].
    apply Qc_of_int_pos. cbn [fmap list_fmap length]. lia.
  - intros source out t now. unfold Distribute.
    set (c := cash (current o) (fnvHash source)).
    assert (Hc : 0 ≤ c) by by apply cash_nonneg.
    set (share := (c / float64 (Z.of_nat (length out) + 1))%fl).
    assert (Hshare : 0 ≤ share).
    { apply Qcdiv_nonneg; [done|]. apply Qc_of_int_pos. lia. }
    set (cur1 := <[0%Z := _]> (current o)).
    assert (Hcur1 : map_Forall (λ _ v, 0 ≤ v) cur1).
    { apply map_Forall_insert_2; [|done].
      apply Qcplus_nonneg_nonneg; [by apply cash_nonneg|done]. }
    pose proof (credit_nonneg share now 0 out cur1 (cleared o) Hshare Hcur1) as Hcur2.
    destruct (credit share now 0 out cur1 (cleared o)) as [cur2 clr2].
    cbn [fst snd] in *. split; [|done].
    set (v := cash cur2 0). assert (Hv : 0 ≤ v) by by apply cash_nonneg.
    set (d := (v / float64 (Z.of_nat (size cur2) + 1))%fl).
    assert (Hd : 0 ≤ d ∧ d ≤ v).
    { split.
      - apply Qcdiv_nonneg; [done|]. apply Qc_of_int_pos. lia.
      - apply Qcdiv_le_self; [done|]. apply (Qc_of_int_le 1). lia. }
    split; cbn [current history].
    + apply map_Forall_insert_2; [by apply Hd|].
      apply map_Forall_insert_2; [|done].
      change (0 ≤ v + - d). apply (proj1 (Qcle_minus_iff d v)), Hd.
    + by apply map_Forall_insert_2.
  - intros ins. unfold Finalise.
    destruct (retire_nonneg ins (current o) (history o) Hcur Hhist) as [Hc Hh].
    by destruct (retire ins (current o) (history o)).
  - intros n. unfold EnsureBalance, Sums. split; [|done]. cbn [current fltb exact].
    case_bool_decide as Hlt; [|done]. apply map_Forall_insert_2; [|done].
    apply Qcplus_nonneg_nonneg; [by apply cash_nonneg|].
    apply Qclt_le_weak, (proj1 (Qclt_minus_iff _ _)). exact Hlt.
Qed.

(** X27. In exact arithmetic, after [Initialise(C, ids)] on the empty ledger,
    for identifiers of pairwise distinct hashes and at least one of them, the
    current cash sums to [C] and the history to 0. *)
Theorem Initialise_sums (C : Qc) (ids : list string) :
  ids ≠ [] → NoDup (fnvHash <$> ids) → Sums (Initialise C ids New) = (0, C).
Proof.
  intros Hne Hnd. unfold Sums. rewrite Initialise_total by done.
  change (history (Initialise C ids New)) with (∅ : gmap Z Qc).
  by rewrite total_empty.
Qed.

End ExactOrder.

Lemma Estimate_decays_witness :
  let o : OPIC Qc := (Distribute "a" ["b"] 0 (λ _, 0)
                        (Initialise (Qc_of_int 3) ["a"; "b"; "c"] New)).2 in
  Estimate "a" 10 0 o = ((Get "a" o).1.1 + (Get "a" o).1.2)%Qc
  ∧ Estimate "a" 10 10 o = (Get "a" o).1.2.
Proof.
  intros o. split.
  - apply (Estimate_decays "a" 10 0 o); [lia|reflexivity].
  - apply (Estimate_decays "a" 10 10 o); [lia|reflexivity].
Defined.

Lemma cash_never_negative_witness :
  let o := (Distribute "a" ["b"] 5 (λ _, 7)
              (Initialise (Qc_of_int 3) ["a"; "b"; "c"] New)).2 in
  nonnegative o
  ∧ nonnegative (Initialise (Qc_of_int 2) ["b"; "d"] o)
  ∧ nonnegative (Distribute "b" ["a"; "c"] 9 (λ _, 11) o).2
  ∧ nonnegative (Finalise ["a"; "c"] o)
  ∧ nonnegative (EnsureBalance (Qc_of_int 5) o).
Proof.
  intros o.
  assert (Ho : nonnegative o) by (split; compute_done).
  destruct (cash_never_negative o Ho) as (Hinit & Hdist & Hfin & Hens).
  split; [done|]. split; [|split; [|split]].
  - apply Hinit. compute_done.
  - apply Hdist.
  - apply Hfin.
  - apply Hens.
Defined.

Lemma Initialise_sums_witness :
  Sums (Initialise (Qc_of_int 3) ["a"; "b"; "c"] New) = (0%Qc, Qc_of_int 3).
Proof.
  apply Initialise_sums; [discriminate|compute_done].
Defined.

(** ** The codec on inputs that are not an encoding *)

Section Inputs.
Implicit Types (o : OPIC float) (r rest bs p q : list byte) (n : Z).

Lemma binaryRead_enough (k : nat) r n o :
  (0 < k ≤ length r)%nat →
  binaryRead k {| input := r; nread := n; target := o |}
  = (inr (take k r), {| input := drop k r; nread := n + Z.of_nat k; target := o |}).
Proof.
  intros Hk. rewrite <- (take_drop k r) at 1.
  rewrite binaryRead_app; [done| |lia]. rewrite length_take. lia.
Qed.

Lemma binaryRead_short (k : nat) r n o :
  (length r < k)%nat →
  binaryRead k {| input := r; nread := n; target := o |}
  = (inl (if decide (r = []) then EOF else ErrUnexpectedEOF),
     {| input := r; nread := n; target := o |}).
Proof.
  intros Hk. unfold binaryRead. cbn [input nread target].
  destruct r as [|b r]; [done|].
  by rewrite (proj2 (Nat.ltb_lt _ _)) by done.
Qed.

Lemma binaryRead_reads_prefix (k : nat) : (0 < k)%nat → reads_prefix (binaryRead k).
Proof.
  intros Hk p q n o a d2 Hfull.
  destruct (decide (length p < k)%nat) as [Hshort|Hlong].
  - right. rewrite binaryRead_short by done. eexists _, _. split; [done|].
    destruct (decide (p = [])); eauto.
  - left. rewrite binaryRead_enough in Hfull by (rewrite length_app; lia).
    injection Hfull as <- <-. cbn [input nread target].
    exists (drop k p). split; [by rewrite drop_app_le by lia|].
    rewrite binaryRead_enough by lia. by rewrite take_app_le by lia.
Qed.

Lemma update_reads_prefix f : reads_prefix (update f).
Proof.
  intros p q n o a d2 Hfull. left. unfold update in *. cbn [input nread target] in *.
  injection Hfull as <- <-. by exists p.
Qed.

Lemma mret_reads_prefix {A} (x : A) : reads_prefix (mret x : Dec A).
Proof.
  intros p q n o a d2 Hfull. left. unfold mret, Dec_ret in *.
  injection Hfull as <- <-. by exists p.
Qed.

Lemma failWith_reads_prefix {A} (e : error) : reads_prefix (failWith e : Dec A).
Proof. intros p q n o a d2 Hfull. discriminate. Qed.

Lemma bind_reads_prefix {A B} (m : Dec A) (f : A → Dec B) :
  reads_prefix m → (∀ a, reads_prefix (f a)) → reads_prefix (m ≫= f).
Proof.
  intros Hm Hf p q n o b d2 Hfull. unfold mbind, Dec_bind in *.
  destruct (m {| input := p ++ q; nread := n; target := o |}) as [[e|a] d1] eqn:Hm1;
    [discriminate|].
  destruct (Hm _ _ _ _ _ _ Hm1) as [(p1 & Hin & ->)|(e & d' & -> & He)].
  - destruct d1 as [in1 n1 o1]. cbn [input nread target] in *. subst in1.
    apply (Hf a _ _ _ _ _ _ Hfull).
  - right. eauto.
Qed.

Lemma times_reads_prefix (c : nat) (body : Dec unit) :
  reads_prefix body → reads_prefix (times c body).
Proof.
  intros Hb. induction c as [|c IH]; [apply mret_reads_prefix|].
  cbn [times]. by apply bind_reads_prefix.
Qed.

Lemma decode_reads_prefix : reads_prefix decode.
Proof.
  assert (Hsec : ∀ store, reads_prefix (readSection store)).
  { intros store. apply bind_reads_prefix; [by apply binaryRead_reads_prefix; lia|].
    intros c. apply times_reads_prefix.
    apply bind_reads_prefix; [by apply binaryRead_reads_prefix; lia|].
    intros e. apply update_reads_prefix. }
  unfold decode. apply bind_reads_prefix; [by apply binaryRead_reads_prefix; lia|].
  intros magic. destruct (decide _); [|apply failWith_reads_prefix].
  apply bind_reads_prefix; [by apply binaryRead_reads_prefix; lia|].
  intros v. destruct (decide _); [|apply failWith_reads_prefix].
  apply bind_reads_prefix; [apply Hsec|]. intros _.
  apply bind_reads_prefix; [apply Hsec|]. intros _. apply Hsec.
Qed.

Lemma length_putEntries {V} (enc : V → Z) (es : list (Z * V)) :
  length (putEntries enc es) = (8 + 16 * length es)%nat.
Proof.
  unfold putEntries, PutUint64. rewrite length_app, length_PutUint. f_equal.
  induction es as [|e es IH]; [done|].
  cbn [fmap list_fmap concat length]. rewrite !length_app, !length_PutUint, IH. lia.
Qed.

Lemma length_WriteToIn cs hs fs :
  length (WriteToIn cs hs fs) = (40 + 16 * (length cs + length hs + length fs))%nat.
Proof.
  unfold WriteToIn. rewrite !length_app, !length_putEntries.
  unfold PutUint64. rewrite length_PutUint. cbn. lia.
Qed.

(** Decoding an encoding reads all of it and nothing of what follows. *)
Lemma decode_WriteToIn cs hs fs rest n o :
  Z.of_nat (length cs) < 2 ^ 63 →
  Z.of_nat (length hs) < 2 ^ 63 →
  Z.of_nat (length fs) < 2 ^ 63 →
  decode {| input := WriteToIn cs hs fs ++ rest; nread := n; target := o |}
  = (inr (),
     {| input := rest;
        nread := n + Z.of_nat (length (WriteToIn cs hs fs));
        target :=
          fill (λ k v, setCleared k (timeUnix (int64 v))) Unix fs
            (fill (λ k v, setHistory k (Float64frombits v)) Float64bits hs
               (fill (λ k v, setCurrent k (Float64frombits v)) Float64bits cs o)) |}).
Proof.
  intros Hc Hh Hf. rewrite length_WriteToIn.
  unfold WriteToIn, decode, mbind, Dec_bind. rewrite <- !app_assoc.
  rewrite binaryRead_app by (vm_compute; done || lia).
  rewrite decide_True by done.
  rewrite binaryRead_app by (vm_compute; done || lia).
  rewrite decide_True by (by vm_compute).
  rewrite !readSection_put by done.
  do 2 f_equal. lia.
Qed.

Lemma ReadFrom_encoding cs hs fs rest o :
  Z.of_nat (length cs) < 2 ^ 63 →
  Z.of_nat (length hs) < 2 ^ 63 →
  Z.of_nat (length fs) < 2 ^ 63 →
  ReadFrom (WriteToIn cs hs fs ++ rest) o
  = (Z.of_nat (length (WriteToIn cs hs fs)), None,
     fill (λ k v, setCleared k (timeUnix (int64 v))) Unix fs
       (fill (λ k v, setHistory k (Float64frombits v)) Float64bits hs
          (fill (λ k v, setCurrent k (Float64frombits v)) Float64bits cs o))).
Proof.
  intros Hc Hh Hf. unfold ReadFrom. by rewrite decode_WriteToIn.
Qed.

Lemma foldl_insert_merge {V W} (kf : Z → Z) (vf : V → W) (es : list (Z * V))
    (m : gmap Z V) (acc : gmap Z W) :
  es ≡ₚ map_to_list m →
  (∀ k, is_Some (m !! k) → kf k = k) →
  foldl (λ a e, <[kf e.1 := vf e.2]> a) acc es = (vf <$> m) ∪ acc.
Proof.
  intros Hperm Hkf. rewrite foldl_insert_union. f_equal.
  rewrite <- (foldl_insert_map_to_list kf vf es m Hperm Hkf).
  by rewrite foldl_insert_union, (right_id_L ∅ (∪)).
Qed.

Lemma trunc_wrap (t : Time) : timeUnix (int64 (wrap64 (Unix t))) = timeUnix (Unix t).
Proof.
  unfold wrap64, Unix. f_equal.
  pose proof (int64_range (t / 10 ^ 9 - unixToInternal)) as Hr.
  unfold int64 at 1. rewrite Zplus_mod_idemp_l.
  fold (int64 (int64 (t / 10 ^ 9 - unixToInternal))). by rewrite int64_small.
Qed.

(** What decoding an encoded ledger into another ledger leaves there. *)
Lemma fill_merge cs hs fs (o1 o2 : OPIC float) :
  well_typed o1 →
  cs ≡ₚ map_to_list (current o1) →
  hs ≡ₚ map_to_list (history o1) →
  fs ≡ₚ map_to_list (cleared o1) →
  fill (λ k v, setCleared k (timeUnix (int64 v))) Unix fs
    (fill (λ k v, setHistory k (Float64frombits v)) Float64bits hs
       (fill (λ k v, setCurrent k (Float64frombits v)) Float64bits cs o2))
  = {| dirty := dirty o2;
       current := current o1 ∪ current o2;
       cleared := ((λ t, timeUnix (Unix t)) <$> cleared o1) ∪ cleared o2;
       history := history o1 ∪ history o2 |}.
Proof.
  intros (Hc & Hh & Hf) Hcs Hhs Hfs.
  rewrite fill_cleared, fill_history, fill_current. cbn [dirty current cleared history].
  f_equal.
  - rewrite (foldl_insert_merge wrap64
               (λ v, Float64frombits (wrap64 (Float64bits v))) cs (current o1)); [|done|].
    + f_equal. rewrite <- (map_fmap_id (current o1)) at 2. apply map_fmap_ext.
      intros k v _. by rewrite wrap64_small, Float64frombits_bits by apply Float64bits_range.
    + intros k [v Hk]. apply wrap64_small. by apply (proj1 Hc k v).
  - rewrite (foldl_insert_merge wrap64
               (λ t, timeUnix (int64 (wrap64 (Unix t)))) fs (cleared o1)); [|done|].
    + f_equal. apply map_fmap_ext. intros k t _. apply trunc_wrap.
    + intros k [v Hk]. apply wrap64_small. by apply (proj1 Hf k v).
  - rewrite (foldl_insert_merge wrap64
               (λ v, Float64frombits (wrap64 (Float64bits v))) hs (history o1)); [|done|].
    + f_equal. rewrite <- (map_fmap_id (history o1)) at 2. apply map_fmap_ext.
      intros k v _. by rewrite wrap64_small, Float64frombits_bits by apply Float64bits_range.
    + intros k [v Hk]. apply wrap64_small. by apply (proj1 Hh k v).
Qed.

Lemma well_typed_lengths cs hs fs (o : OPIC float) :
  well_typed o →
  cs ≡ₚ map_to_list (current o) →
  hs ≡ₚ map_to_list (history o) →
  fs ≡ₚ map_to_list (cleared o) →
  Z.of_nat (length cs) < 2 ^ 63
  ∧ Z.of_nat (length hs) < 2 ^ 63
  ∧ Z.of_nat (length fs) < 2 ^ 63
  ∧ length cs = size (current o) ∧ length hs = size (history o)
  ∧ length fs = size (cleared o).
Proof.
  intros (Hc & Hh & Hf) -> -> ->. rewrite !length_map_to_list.
  destruct Hc, Hh, Hf. done.
Qed.

(** X13. [WriteTo] writes 40 bytes of header and counts and 16 bytes for
    every entry of the three maps, and reports that number. *)
Theorem WriteTo_counts o :
  Z.of_nat (length (WriteTo o).2) = (WriteTo o).1
  ∧ (WriteTo o).1
    = 40 + 16 * Z.of_nat (size (current o) + size (history o) + size (cleared o)).
Proof.
  unfold WriteTo. cbn [fst snd]. split; [done|].
  rewrite length_WriteToIn, !length_map_to_list. lia.
Qed.

(** X14. [ReadFrom] stops where the encoding ends: whatever follows an
    encoding is neither read nor counted, and the number of bytes reported is
    the length of the encoding. *)
Theorem ReadFrom_stops_at_end cs hs fs rest o :
  Z.of_nat (length cs) < 2 ^ 63 →
  Z.of_nat (length hs) < 2 ^ 63 →
  Z.of_nat (length fs) < 2 ^ 63 →
  ReadFrom (WriteToIn cs hs fs ++ rest) o = ReadFrom (WriteToIn cs hs fs) o
  ∧ (ReadFrom (WriteToIn cs hs fs) o).1 = (Z.of_nat (length (WriteToIn cs hs fs)), None).
Proof.
  intros Hc Hh Hf.
  rewrite <- (app_nil_r (WriteToIn cs hs fs)) at 2 3.
  by rewrite !ReadFrom_encoding.
Qed.

(** X15. A truncated encoding is rejected: on every proper prefix of an
    encoding [ReadFrom] answers [io.EOF] or [io.ErrUnexpectedEOF]. *)
Theorem ReadFrom_truncated cs hs fs (k : nat) o :
  Z.of_nat (length cs) < 2 ^ 63 →
  Z.of_nat (length hs) < 2 ^ 63 →
  Z.of_nat (length fs) < 2 ^ 63 →
  (k < length (WriteToIn cs hs fs))%nat →
  (ReadFrom (take k (WriteToIn cs hs fs)) o).1.2 = Some EOF
  ∨ (ReadFrom (take k (WriteToIn cs hs fs)) o).1.2 = Some ErrUnexpectedEOF.
Proof.
  intros Hc Hh Hf Hk. set (w := WriteToIn cs hs fs) in *.
  pose proof (decode_WriteToIn cs hs fs [] 0 o Hc Hh Hf) as Hfull.
  fold w in Hfull. rewrite app_nil_r, <- (take_drop k w) in Hfull.
  destruct (decode_reads_prefix _ _ _ _ _ _ Hfull) as [(p' & Hin & _)|(e & d' & He & Hkind)].
  - cbn [input] in Hin. symmetry in Hin. apply app_eq_nil in Hin as [_ Hdrop].
    apply (f_equal length) in Hdrop. rewrite length_drop in Hdrop.
    change (length (@nil byte)) with 0%nat in Hdrop. lia.
  - unfold ReadFrom. rewrite He. cbn. destruct Hkind as [-> | ->]; eauto.
Qed.

(** X16. [ReadFrom] looks at the magic and at the version before it touches
    the ledger: an input of fewer than 8 bytes, one that does not start with
    the magic, and one whose version is not 1 are rejected after 0, 8 and 16
    bytes, with the ledger as it was. *)
Theorem ReadFrom_checks_header r o :
  ((length r < 8)%nat →
   ReadFrom r o = (0, Some (if decide (r = []) then EOF else ErrUnexpectedEOF), o))
  ∧ ((8 ≤ length r)%nat → take 8 r ≠ bytes_of_string expectedMagic →
     ReadFrom r o = (8, Some ErrInvalidMagic, o))
  ∧ ((16 ≤ length r)%nat → take 8 r = bytes_of_string expectedMagic →
     Uint (take 8 (drop 8 r)) ≠ 1 →
     ReadFrom r o = (16, Some (ErrInvalidVersion (Uint (take 8 (drop 8 r)))), o)).
Proof.
  split; [|split].
  - intros Hlen. unfold ReadFrom, decode, mbind, Dec_bind.
    by rewrite binaryRead_short.
  - intros Hlen Hmagic. unfold ReadFrom, decode, mbind, Dec_bind.
    rewrite binaryRead_enough by lia. by rewrite decide_False.
  - intros Hlen Hmagic Hv. unfold ReadFrom, decode, mbind, Dec_bind.
    rewrite binaryRead_enough by lia. rewrite decide_True by done.
    rewrite binaryRead_enough by (rewrite length_drop; lia).
    by rewrite decide_False.
Qed.

(** X17. A failed [ReadFrom] is not undone: when the input ends after the
    section of the current cash, the call answers an error and the entries of
    that section are in the ledger all the same, over what was there; history
    and cleared times are as they were. *)
Theorem ReadFrom_keeps_what_it_read cs (m : gmap Z float) rest o :
  uint64_keys m →
  cs ≡ₚ map_to_list m →
  (length rest < 8)%nat →
  ReadFrom (bytes_of_string expectedMagic ++ PutUint64 1
            ++ putEntries Float64bits cs ++ rest) o
  = (24 + 16 * Z.of_nat (size m),
     Some (if decide (rest = []) then EOF else ErrUnexpectedEOF),
     {| dirty := dirty o; current := m ∪ current o;
        cleared := cleared o; history := history o |}).
Proof.
  intros Hm Hcs Hrest.
  assert (Hlen : Z.of_nat (length cs) < 2 ^ 63)
    by (rewrite Hcs, length_map_to_list; apply Hm).
  unfold ReadFrom, decode, mbind, Dec_bind.
  rewrite binaryRead_app by (vm_compute; done || lia).
  rewrite decide_True by done.
  rewrite binaryRead_app by (vm_compute; done || lia).
  rewrite decide_True by (by vm_compute).
  rewrite readSection_put by done.
  unfold readSection, mbind, Dec_bind. rewrite binaryRead_short by done.
  rewrite fill_current. cbn [fst snd nread target dirty current cleared history].
  rewrite Hcs at 1. rewrite length_map_to_list.
  rewrite (foldl_insert_merge wrap64
             (λ v, Float64frombits (wrap64 (Float64bits v))) cs m);
    [|done|by intros k [v Hk]; apply wrap64_small, (proj1 Hm k v)].
  assert ((λ v, Float64frombits (wrap64 (Float64bits v))) <$> m = m) as ->.
  { rewrite <- (map_fmap_id m) at 2. apply map_fmap_ext.
    intros k v _. by rewrite wrap64_small, Float64frombits_bits by apply Float64bits_range. }
  replace (0 + Z.of_nat 8 + Z.of_nat 8 + 8 + 16 * Z.of_nat (size m))
    with (24 + 16 * Z.of_nat (size m)) by lia.
  reflexivity.
Qed.

(** Decoding what [WriteTo] wrote into another ledger. *)
Lemma ReadFrom_WriteTo (o1 o2 : OPIC float) :
  well_typed o1 →
  ReadFrom (WriteTo o1).2 o2
  = ((WriteTo o1).1, None,
     {| dirty := dirty o2;
        current := current o1 ∪ current o2;
        cleared := ((λ t, timeUnix (Unix t)) <$> cleared o1) ∪ cleared o2;
        history := history o1 ∪ history o2 |}).
Proof.
  intros Hwt. unfold WriteTo. cbn [fst snd].
  set (cs := map_to_list (current o1)).
  set (hs := map_to_list (history o1)).
  set (fs := map_to_list (cleared o1)).
  assert (Hcs : cs ≡ₚ map_to_list (current o1)) by done.
  assert (Hhs : hs ≡ₚ map_to_list (history o1)) by done.
  assert (Hfs : fs ≡ₚ map_to_list (cleared o1)) by done.
  destruct (well_typed_lengths cs hs fs o1 Hwt Hcs Hhs Hfs)
    as (Hc & Hh & Hf & _).
  rewrite <- (app_nil_r (WriteToIn cs hs fs)) at 1.
  rewrite ReadFrom_encoding by done.
  by rewrite (fill_merge cs hs fs o1 o2).
Qed.

(** X18. Decoding into a ledger that is not empty merges: every entry of the
    encoded ledger replaces the entry of the same key, every other entry of
    the receiving ledger stays, and so does its dirty flag. *)
Theorem ReadFrom_merges cs hs fs (o1 o2 : OPIC float) :
  well_typed o1 →
  cs ≡ₚ map_to_list (current o1) →
  hs ≡ₚ map_to_list (history o1) →
  fs ≡ₚ map_to_list (cleared o1) →
  ReadFrom (WriteToIn cs hs fs) o2
  = ((WriteTo o1).1, None,
     {| dirty := dirty o2;
        current := current o1 ∪ current o2;
        cleared := ((λ t, timeUnix (Unix t)) <$> cleared o1) ∪ cleared o2;
        history := history o1 ∪ history o2 |}).
Proof.
  intros Hwt Hcs Hhs Hfs.
  destruct (well_typed_lengths cs hs fs o1 Hwt Hcs Hhs Hfs)
    as (Hc & Hh & Hf & Hlc & Hlh & Hlf).
  rewrite <- (app_nil_r (WriteToIn cs hs fs)), ReadFrom_encoding by done.
  rewrite (fill_merge cs hs fs o1 o2) by done.
  do 2 f_equal. unfold WriteTo. cbn [fst].
  rewrite !length_WriteToIn, !length_map_to_list. lia.
Qed.

Lemma int64_add_l (a b : Z) : int64 (int64 a + b) = int64 (a + b).
Proof.
  unfold int64. f_equal.
  replace ((a + 2 ^ 63) mod 2 ^ 64 - 2 ^ 63 + b + 2 ^ 63)
    with ((a + 2 ^ 63) mod 2 ^ 64 + b) by lia.
  rewrite Zplus_mod_idemp_l. f_equal. lia.
Qed.

(** Cutting a time to the second a second time changes nothing. *)
Lemma trunc_idem (t : Time) : timeUnix (Unix (timeUnix (Unix t))) = timeUnix (Unix t).
Proof.
  unfold timeUnix at 2. set (s := int64 (Unix t + unixToInternal)).
  unfold Unix at 1. rewrite Z.div_mul by lia.
  unfold timeUnix. rewrite int64_add_l.
  replace (s - unixToInternal + unixToInternal) with s by lia.
  rewrite int64_small; [done|]. apply int64_range.
Qed.

(** X19. What was decoded round-trips exactly: encode a ledger, decode it
    into an empty ledger, and encode and decode the result once more; the
    second decoding gives the ledger of the first, cleared times included. *)
Theorem codec_second_trip_exact o :
  well_typed o →
  let o1 := (ReadFrom (MarshalBinary o) New).2 in
  ReadFrom (MarshalBinary o1) New = ((WriteTo o).1, None, o1).
Proof.
  intros Hwt o1.
  assert (Ho1 : o1 = {| dirty := false; current := current o;
                        cleared := (λ t, timeUnix (Unix t)) <$> cleared o;
                        history := history o |}).
  { subst o1. unfold MarshalBinary. rewrite ReadFrom_WriteTo by done.
    cbn [snd New dirty current cleared history]. by rewrite !(right_id_L ∅ (∪)). }
  clearbody o1. subst o1.
  set (o1 := {| dirty := false; current := current o;
                cleared := (λ t, timeUnix (Unix t)) <$> cleared o;
                history := history o |}).
  assert (Hwt1 : well_typed o1).
  { destruct Hwt as (Hc & Hh & [Hfk Hfs]). split; [done|]. split; [done|].
    cbn [cleared o1]. split.
    - intros k t. rewrite lookup_fmap. intros Hk.
      destruct (cleared o !! k) as [t0|] eqn:Hk0; [|done]. by apply (Hfk k t0).
    - by rewrite map_size_fmap. }
  unfold MarshalBinary. rewrite ReadFrom_WriteTo by done.
  cbn [New dirty current cleared history]. rewrite !(right_id_L ∅ (∪)).
  assert (Htrunc : (λ t, timeUnix (Unix t)) <$> cleared o1 = cleared o1).
  { unfold o1. cbn [cleared]. rewrite <- map_fmap_compose. apply map_fmap_ext.
    intros k t _. apply trunc_idem. }
  rewrite Htrunc.
  assert (Hn : (WriteTo o1).1 = (WriteTo o).1).
  { unfold WriteTo. cbn [fst]. rewrite !length_WriteToIn, !length_map_to_list.
    unfold o1. cbn [current history cleared]. by rewrite map_size_fmap. }
  by rewrite Hn.
Qed.
End Inputs.

Lemma ReadFrom_stops_at_end_witness :
  let cs := [(1, 1.5%float); (2, 0.5%float)] in
  let fs := [(1, 63900000000 * 10 ^ 9)] in
  ReadFrom (WriteToIn cs [] fs ++ [Byte.x2a; Byte.x2a]) New = ReadFrom (WriteToIn cs [] fs) New
  ∧ (ReadFrom (WriteToIn cs [] fs) New).1 = (Z.of_nat (length (WriteToIn cs [] fs)), None).
Proof.
  intros cs fs. apply ReadFrom_stops_at_end; compute_done.
Defined.

Lemma ReadFrom_truncated_witness :
  let cs := [(1, 1.5%float); (2, 0.5%float)] in
  let fs := [(1, 63900000000 * 10 ^ 9)] in
  (ReadFrom (take 50 (WriteToIn cs [] fs)) New).1.2 = Some EOF
  ∨ (ReadFrom (take 50 (WriteToIn cs [] fs)) New).1.2 = Some ErrUnexpectedEOF.
Proof.
  intros cs fs. apply ReadFrom_truncated; compute_done.
Defined.

Lemma ReadFrom_keeps_what_it_read_witness :
  let m : gmap Z float := {[ 7 := 1.5%float ]} in
  let o : OPIC float := Initialise 3%float ["a"] New in
  ReadFrom (bytes_of_string expectedMagic ++ PutUint64 1
            ++ putEntries Float64bits (map_to_list m) ++ [Byte.x00; Byte.x00]) o
  = (24 + 16 * Z.of_nat (size m),
     Some (if decide ([Byte.x00; Byte.x00] = []) then EOF else ErrUnexpectedEOF),
     {| dirty := dirty o; current := m ∪ current o;
        cleared := cleared o; history := history o |}).
Proof.
  intros m o. apply ReadFrom_keeps_what_it_read.
  - split; compute_done.
  - reflexivity.
  - compute_done.
Defined.

Lemma ReadFrom_merges_witness :
  let o1 : OPIC float := (Distribute "a" ["b"] 1500000000 (λ _, 7)
                            (Initialise 3%float ["a"; "b"] New)).2 in
  let o2 : OPIC float := Initialise 1%float ["b"; "c"] New in
  ReadFrom (WriteToIn (map_to_list (current o1)) (map_to_list (history o1))
              (map_to_list (cleared o1))) o2
  = ((WriteTo o1).1, None,
     {| dirty := dirty o2;
        current := current o1 ∪ current o2;
        cleared := ((λ t, timeUnix (Unix t)) <$> cleared o1) ∪ cleared o2;
        history := history o1 ∪ history o2 |}).
Proof.
  intros o1 o2. apply ReadFrom_merges; [|reflexivity..].
  unfold well_typed, uint64_keys.
  split; [|split]; (split; [compute_done | compute_done]).
Defined.

Lemma codec_second_trip_exact_witness :
  let o : OPIC float := (Distribute "a" ["b"] 1500000000 (λ _, 7)
                           (Initialise 3%float ["a"; "b"] New)).2 in
  let o1 := (ReadFrom (MarshalBinary o) New).2 in
  ReadFrom (MarshalBinary o1) New = ((WriteTo o).1, None, o1).
Proof.
  intros o. apply codec_second_trip_exact.
  unfold well_typed, uint64_keys.
  split; [|split]; (split; [compute_done | compute_done]).
Defined.

(** ** Saving and loading *)

Section Files.
Implicit Types (p : Persistent) (fs : FS) (o : OPIC float).

Lemma binaryRead_keeps_flag (k : nat) : keeps_flag (binaryRead k).
Proof.
  intros d r d'. unfold binaryRead. destruct (input d); [by intros [= <- <-]|].
  destruct (_ <? _)%nat; by intros [= <- <-].
Qed.

Lemma bind_keeps_flag {A B} (m : Dec A) (f : A → Dec B) :
  keeps_flag m → (∀ a, keeps_flag (f a)) → keeps_flag (m ≫= f).
Proof.
  intros Hm Hf d r d'. unfold mbind, Dec_bind.
  destruct (m d) as [[e|a] d1] eqn:Hm1.
  - intros [= <- <-]. by apply (Hm _ _ _ Hm1).
  - intros Hf1. rewrite (Hf _ _ _ _ Hf1). by apply (Hm _ _ _ Hm1).
Qed.

Lemma times_keeps_flag (c : nat) (body : Dec unit) :
  keeps_flag body → keeps_flag (times c body).
Proof.
  intros Hb. induction c as [|c IH]; [by intros d r d' [= <- <-]|].
  cbn [times]. by apply bind_keeps_flag.
Qed.

Lemma decode_keeps_flag : keeps_flag decode.
Proof.
  assert (Hsec : ∀ store, (∀ k v o, dirty (store k v o) = dirty o) →
                          keeps_flag (readSection store)).
  { intros store Hstore. apply bind_keeps_flag; [apply binaryRead_keeps_flag|].
    intros c. apply times_keeps_flag.
    apply bind_keeps_flag; [apply binaryRead_keeps_flag|].
    intros e d r d'. unfold update. intros [= <- <-]. apply Hstore. }
  unfold decode. apply bind_keeps_flag; [apply binaryRead_keeps_flag|].
  intros magic. destruct (decide _); [|by intros d r d' [= <- <-]].
  apply bind_keeps_flag; [apply binaryRead_keeps_flag|].
  intros v. destruct (decide _); [|by intros d r d' [= <- <-]].
  apply bind_keeps_flag; [by apply Hsec|]. intros _.
  apply bind_keeps_flag; [by apply Hsec|]. intros _. by apply Hsec.
Qed.

Lemma ReadFrom_keeps_flag r o : dirty (ReadFrom r o).2 = dirty o.
Proof.
  unfold ReadFrom.
  destruct (decode {| input := r; nread := 0; target := o |}) as [[e|u] d] eqn:Hd;
    apply (decode_keeps_flag _ _ _ Hd).
Qed.

(** X20. [Load] never marks the ledger dirty and never changes the file name:
    when it fails, on a missing file or on a decoding error, the dirty flag
    is as it was, whatever was decoded before the error; when it succeeds the
    flag is cleared. With no file the instance is left as it is. *)
Theorem Load_dirty_flag p fs :
  filename (Load p fs).2 = filename p
  ∧ (∀ e, (Load p fs).1 = Some e → dirty (ledger (Load p fs).2) = dirty (ledger p))
  ∧ ((Load p fs).1 = None → dirty (ledger (Load p fs).2) = false)
  ∧ (files fs !! filename p = None → Load p fs = (Some ENOENT, p)).
Proof.
  unfold Load, OpenFile.
  destruct (files fs !! filename p) as [content|]; [|done].
  pose proof (ReadFrom_keeps_flag content (ledger p)) as Hflag.
  destruct (ReadFrom content (ledger p)) as [[n [e|]] o']; cbn [fst snd ledger filename] in *.
  - by repeat split.
  - by repeat split.
Qed.

(** X21. What [Save] writes, [Load] reads back: when the temporary file is
    new, is not the file of the instance and lies on its device, [Save]
    succeeds, and a new instance for the same file that loads from the
    resulting file system gets the ledger that was saved: the same current
    cash and history, the cleared times cut to the second, not dirty. *)
Theorem Save_then_Load (tmp : string) p fs :
  well_typed (ledger p) →
  tmp ≠ filename p →
  files fs !! tmp = None →
  device fs tmp = device fs (filename p) →
  ∃ fs1 fs2 fs3,
    Save tmp p fs
    = (None, {| ledger := setDirty false (ledger p); filename := filename p |},
       [fs1; fs2; fs3])
    ∧ Load (NewPersistent (filename p)) fs3
      = (None,
         {| ledger := {| dirty := false;
                         current := current (ledger p);
                         cleared := (λ t, timeUnix (Unix t)) <$> cleared (ledger p);
                         history := history (ledger p) |};
            filename := filename p |}).
Proof.
  intros Hwt Hne Hnew Hdev. unfold Save, TempFile. rewrite Hnew.
  unfold Rename, WriteFile. cbn [files device].
  rewrite !lookup_insert_eq. rewrite decide_True by done.
  eexists _, _, _. split; [reflexivity|].
  unfold Load, OpenFile, NewPersistent. cbn [files filename ledger].
  rewrite lookup_insert_eq.
  change (default [] (Some []) ++ ?w) with w.
  rewrite ReadFrom_WriteTo by done.
  cbn [New dirty current cleared history setDirty].
  by rewrite !(right_id_L ∅ (∪)).
Qed.

(** X22. How [Save] fails. When the name picked for the temporary file is
    taken, [Save] answers the error with the file system untouched. When the
    temporary file lies on another device than the file of the instance,
    [Save] answers the error of the rename, the instance stays as it was,
    dirty flag included, the file of the instance is untouched, and the
    temporary file, holding the whole encoding, is left behind. *)
Theorem Save_failures (tmp : string) p fs :
  (is_Some (files fs !! tmp) → Save tmp p fs = (Some EEXIST, p, []))
  ∧ (files fs !! tmp = None →
     tmp ≠ filename p →
     device fs tmp ≠ device fs (filename p) →
     ∃ fs1 fs2,
       Save tmp p fs = (Some EXDEV, p, [fs1; fs2])
       ∧ files fs2 !! tmp = Some (WriteTo (ledger p)).2
       ∧ files fs2 !! filename p = files fs !! filename p).
Proof.
  unfold Save, TempFile. split.
  - intros [old ->]. done.
  - intros -> Hne Hdev. unfold Rename, WriteFile. cbn [files device].
    rewrite !lookup_insert_eq. rewrite decide_False by done.
    eexists _, _. split; [reflexivity|]. cbn [files]. split.
    + by rewrite lookup_insert_eq.
    + by rewrite !lookup_insert_ne.
Qed.
End Files.

Lemma Save_then_Load_witness :
  let p := {| ledger := Initialise 3%float ["a"; "b"] New; filename := "/srv/opic.db" |} in
  let fs := {| files := ∅; device := λ _, 0%nat |} in
  ∃ fs1 fs2 fs3,
    Save "/srv/opic346912" p fs
    = (None, {| ledger := setDirty false (ledger p); filename := filename p |},
       [fs1; fs2; fs3])
    ∧ Load (NewPersistent (filename p)) fs3
      = (None,
         {| ledger := {| dirty := false;
                         current := current (ledger p);
                         cleared := (λ t, timeUnix (Unix t)) <$> cleared (ledger p);
                         history := history (ledger p) |};
            filename := filename p |}).
Proof.
  intros p fs. apply Save_then_Load.
  - unfold well_typed, uint64_keys.
    split; [|split]; (split; [compute_done | compute_done]).
  - discriminate.
  - reflexivity.
  - reflexivity.
Defined.

Lemma Save_replaces_at_once_witness :
  let p := {| ledger := Initialise 3%float ["a"; "b"] New; filename := "/srv/opic.db" |} in
  let fs := {| files := {[ "/srv/opic.db" := MarshalBinary New ]};
               device := λ _, 0%nat |} in
  let '(err, p', trace) := Save "/srv/opic346912" p fs in
  Forall (λ fs', files fs' !! filename p = files fs !! filename p) (take 2 trace)
  ∧ match err with
    | Some _ =>
        p' = p
        ∧ Forall (λ fs', files fs' !! filename p = files fs !! filename p) trace
    | None =>
        Dirty (ledger p') = false
        ∧ ∃ fs3, trace !! 2%nat = Some fs3
                 ∧ files fs3 !! filename p = Some (WriteTo (ledger p)).2
                 ∧ files fs3 !! "/srv/opic346912" = None
    end.
Proof.
  intros p fs. apply (Save_replaces_at_once "/srv/opic346912" p fs). discriminate.
Defined.

(** ** The import of the command line tool *)

Section Importing.
Implicit Types (r s body cutset : string) (c delim sep : Ascii.ascii).

Lemma readStrings_length delim r :
  length (readStrings delim r) = S (occurrences delim r).
Proof.
  induction r as [|c r IH]; [done|]. cbn [readStrings occurrences].
  destruct (decide (c = delim)); [cbn; by rewrite IH|].
  destruct (readStrings delim r) as [|l ls]; [done|]. cbn [length] in *. lia.
Qed.

Lemma readStrings_last delim s :
  last (readStrings delim (s +:+ String delim EmptyString)) = Some EmptyString.
Proof.
  induction s as [|c s IH].
  - change (EmptyString +:+ ?x) with x. cbn [readStrings].
    by destruct (decide (delim = delim)).
  - change (String c s +:+ ?x) with (String c (s +:+ x)). cbn [readStrings].
    pose proof (readStrings_length delim (s +:+ String delim EmptyString)) as Hlen.
    destruct (readStrings delim (s +:+ String delim EmptyString)) as [|l ls]; [done|].
    destruct (decide (c = delim)); [done|].
    destruct ls as [|l' ls]; [|done].
    cbn in IH. injection IH as ->. cbn in Hlen.
    assert (occurrences delim (s +:+ String delim EmptyString) ≠ 0%nat); [|lia].
    clear. induction s as [|c s IH].
    + change (EmptyString +:+ ?x) with x. cbn [occurrences].
      by destruct (decide (delim = delim)).
    + change (String c s +:+ ?x) with (String c (s +:+ x)). cbn [occurrences]. lia.
Qed.

Lemma firstField_occurrences sep c s :
  occurrences sep (firstField sep s) = 0%nat
  ∧ (occurrences c (firstField sep s) ≤ occurrences c s)%nat.
Proof.
  induction s as [|c' s [IH1 IH2]]; [done|]. cbn [firstField occurrences].
  destruct (decide (c' = sep)) as [->|Hne]; cbn [occurrences].
  - split; [done|lia].
  - rewrite decide_False by done. split; [done|]. lia.
Qed.

Lemma TrimRight_occurrences c s cutset :
  (occurrences c (TrimRight s cutset) ≤ occurrences c s)%nat.
Proof.
  induction s as [|c' s IH]; [done|]. cbn [TrimRight occurrences].
  destruct (TrimRight s cutset) as [|c'' t].
  - destruct (contains cutset c'); cbn [occurrences]; lia.
  - cbn [occurrences] in *. lia.
Qed.

Lemma TrimRight_delim body delim cutset :
  contains cutset delim = true →
  TrimRight (body +:+ String delim EmptyString) cutset = TrimRight body cutset.
Proof.
  intros Hcut. induction body as [|c body IH].
  - change (EmptyString +:+ ?x) with x. cbn [TrimRight]. by rewrite Hcut.
  - change (String c body +:+ ?x) with (String c (body +:+ x)).
    cbn [TrimRight]. by rewrite IH.
Qed.

(** Every answer of [ReadString] has the delimiter at its end or nowhere. *)
Lemma readStrings_lines delim r :
  Forall (λ l, ∃ body, occurrences delim body = 0%nat
                       ∧ (l = body ∨ l = body +:+ String delim EmptyString))
         (readStrings delim r).
Proof.
  induction r as [|c r IH]; [constructor; [by exists EmptyString; eauto|done]|].
  cbn [readStrings]. destruct (decide (c = delim)) as [->|Hne].
  - constructor; [|done]. exists EmptyString. split; [done|by right].
  - destruct (readStrings delim r) as [|l ls].
    + constructor; [|done]. exists (String c EmptyString). cbn [occurrences].
      rewrite decide_False by done. eauto.
    + apply Forall_cons in IH as [(body & Hbody & Hl) Hls]. constructor; [|done].
      exists (String c body). cbn [occurrences]. rewrite decide_False by done.
      split; [done|]. destruct Hl as [-> | ->]; eauto.
Qed.

(** X23. The import never comes up with no identifier: the file gives one
    identifier more than it has line feeds, so [Initialise] divides by a
    length of at least one, and every identifier read gets the cash divided
    by that length; the ledger is dirty afterwards. *)
Theorem import_shares (initialise : float) (content : string) (a : Persistent) :
  let urls := initialURLs content in
  let a' := importFile initialise content a in
  length urls = S (occurrences newline content)
  ∧ (∀ u, u ∈ urls →
          cash (current (ledger a')) (fnvHash u)
          = (initialise / float64 (Z.of_nat (S (occurrences newline content))))%fl)
  ∧ Dirty (ledger a') = true.
Proof.
  intros urls a'.
  assert (Hlen : length urls = S (occurrences newline content)).
  { unfold urls, initialURLs. by rewrite length_fmap, readStrings_length. }
  split; [done|]. split; [|done].
  intros u Hu. unfold a', importFile, Initialise, InitialiseN. cbn [ledger current].
  fold urls. unfold cash.
  rewrite assign_lookup, decide_True by by apply list_elem_of_fmap_2.
  by rewrite length_fmap, Hlen.
Qed.

(** X24. An import file that ends with a line feed gives the empty
    identifier as its last one, which takes a share of the cash like any
    other; so does the empty file, whose only identifier it is. *)
Theorem import_trailing_newline (initialise : float) (s : string) (a : Persistent) :
  let content := s +:+ String newline EmptyString in
  last (initialURLs content) = Some EmptyString
  ∧ cash (current (ledger (importFile initialise content a))) (fnvHash EmptyString)
    = (initialise / float64 (Z.of_nat (S (occurrences newline content))))%fl
  ∧ initialURLs EmptyString = [EmptyString].
Proof.
  intros content.
  assert (Hlast : last (initialURLs content) = Some EmptyString).
  { unfold initialURLs, content. by rewrite fmap_last, readStrings_last. }
  split; [done|]. split; [|done].
  unfold importFile, Initialise, InitialiseN. cbn [ledger current]. unfold cash.
  rewrite assign_lookup, decide_True.
  - unfold initialURLs. by rewrite !length_fmap, readStrings_length.
  - apply list_elem_of_fmap_2. by apply last_Some_elem_of.
Qed.

(** X25. No identifier that the import reads holds a tab or a line feed. *)
Theorem import_identifiers_clean (content : string) :
  Forall (λ u, occurrences tab u = 0%nat ∧ occurrences newline u = 0%nat)
         (initialURLs content).
Proof.
  unfold initialURLs. apply Forall_fmap.
  eapply Forall_impl; [apply readStrings_lines|]. cbv beta.
  intros l (body & Hbody & Hl).
  split; [apply (proj1 (firstField_occurrences tab tab _))|].
  assert (Htrim : TrimRight l blanks = TrimRight body blanks).
  { destruct Hl as [-> | ->]; [done|]. by apply TrimRight_delim. }
  rewrite Htrim.
  pose proof (proj2 (firstField_occurrences tab newline (TrimRight body blanks))).
  pose proof (TrimRight_occurrences newline body blanks). lia.
Qed.
End Importing.
